(** * Efaktur-Rename-Flask: the extraction-and-naming pipeline of [renamer.py]

    A shallow embedding of [src/renamer.py] and the properties its
    specification states about it.

    - Python [str] values are lists of Unicode code points ([N]).
    - The [re] module is embedded as a small backtracking matcher over the
      constructs the five patterns of [renamer.py] use (literals, character
      classes, greedy and lazy repetition of one character class, [\b],
      one named group, the IGNORECASE flag), with [re.search] and [re.sub]
      on top of it.
    - The Unicode tables behind [\d], [\w], IGNORECASE, [str.upper] and
      [str.lower] are written out for ASCII; beyond ASCII they are fields of
      the class [UnicodeDB].
    - PyPDF2 is a parameter: a function from the file's bytes to its pages'
      texts, or nothing when it raises. *)

From Stdlib Require Import String Ascii NArith ZArith Bool Arith Lia List DecimalNat.
From Stdlib.Strings Require Import Byte.
Import ListNotations.

(** ** Strings *)

Definition char := N.
Definition str := list char.

Fixpoint bytes_of_string (s : string) : list N :=
  match s with
  | EmptyString => []
  | String a s' => N_of_ascii a :: bytes_of_string s'
  end.

(** UTF-8 decoding, so that the literals of the Python source can be written
    as they are there. *)
Fixpoint utf8_decode (bs : list N) : str :=
  match bs with
  | [] => []
  | b0 :: t0 =>
      if (b0 <? 0x80)%N then b0 :: utf8_decode t0
      else
        match t0 with
        | [] => [b0]
        | b1 :: t1 =>
            if (b0 <? 0xE0)%N
            then ((b0 - 0xC0) * 64 + (b1 - 0x80))%N :: utf8_decode t1
            else
              match t1 with
              | [] => [b0; b1]
              | b2 :: t2 =>
                  if (b0 <? 0xF0)%N
                  then ((b0 - 0xE0) * 4096 + (b1 - 0x80) * 64 + (b2 - 0x80))%N
                       :: utf8_decode t2
                  else
                    match t2 with
                    | [] => [b0; b1; b2]
                    | b3 :: t3 =>
                        ((b0 - 0xF0) * 262144 + (b1 - 0x80) * 4096
                         + (b2 - 0x80) * 64 + (b3 - 0x80))%N
                        :: utf8_decode t3
                    end
              end
        end
  end.

(** [u "..."] is the Python literal ["..."]. *)
Definition u (s : string) : str := utf8_decode (bytes_of_string s).
Arguments u s%_string.

Definition str_eqb (a b : str) : bool :=
  if list_eq_dec N.eq_dec a b then true else false.

Definition chr_quote : char := 34%N.
Definition chr_space : char := 32%N.
Definition chr_newline : char := 10%N.
Definition chr_slash : char := 47%N.
Definition chr_dot : char := 46%N.
Definition chr_dash : char := 45%N.
Definition FULLWIDTH_SLASH : char := 0xFF0F%N.

(** ** Character tables *)

(** [Py_UNICODE_ISSPACE]: the table behind [\s] in a [str] pattern and
    behind [str.strip()]. *)
Definition isspace (c : char) : bool :=
  ((9 <=? c) && (c <=? 13) || (28 <=? c) && (c <=? 32)
   || (c =? 0x85) || (c =? 0xA0) || (c =? 0x1680)
   || (0x2000 <=? c) && (c <=? 0x200A)
   || (c =? 0x2028) || (c =? 0x2029) || (c =? 0x202F)
   || (c =? 0x205F) || (c =? 0x3000))%N.

Definition is_ascii (c : char) : bool := (c <? 128)%N.
Definition ascii_isdigit (c : char) : bool := ((48 <=? c) && (c <=? 57))%N.
Definition ascii_isupper (c : char) : bool := ((65 <=? c) && (c <=? 90))%N.
Definition ascii_islower (c : char) : bool := ((97 <=? c) && (c <=? 122))%N.
Definition ascii_isalpha (c : char) : bool := ascii_isupper c || ascii_islower c.
Definition ascii_lower (c : char) : char := if ascii_isupper c then (c + 32)%N else c.
Definition ascii_upper (c : char) : char := if ascii_islower c then (c - 32)%N else c.

(** The Unicode character database beyond ASCII. *)
Class UnicodeDB := {
  (** decimal digits (category Nd): [\d] *)
  decimal_ext : char -> bool;
  (** alphanumeric characters: [\w] is these and the underscore *)
  alnum_ext : char -> bool;
  (** whether a pattern literal and a subject character are equal under
      IGNORECASE, when one of them is not an ASCII character *)
  ignore_ext : char -> char -> bool;
  (** the full upper-case mapping of one character *)
  upper_ext : char -> str;
  (** the full lower-case mapping of one character between the text before
      it and the text after it (final sigma looks at both) *)
  lower_ext : str -> char -> str -> str;
  (** no decimal digit is white space *)
  decimal_ext_not_space : forall c, decimal_ext c = true -> isspace c = false
}.

(** The database with nothing beyond ASCII: every other character is left
    alone, and is neither a digit nor a letter. *)
#[refine] Instance ascii_only_db : UnicodeDB := {|
  decimal_ext := fun _ => false;
  alnum_ext := fun _ => false;
  ignore_ext := fun p c => N.eqb c p;
  upper_ext := fun c => [c];
  lower_ext := fun _ c _ => [c]
|}.
Proof. discriminate. Defined.

Section Unicode.
Context {db : UnicodeDB}.

Definition isdecimal (c : char) : bool :=
  if is_ascii c then ascii_isdigit c else decimal_ext c.

(** [\w] *)
Definition isword (c : char) : bool :=
  if is_ascii c then ascii_isalpha c || ascii_isdigit c || (c =? 95)%N
  else alnum_ext c.

(** A pattern literal [p] against the subject character [c] under
    IGNORECASE. *)
Definition lit_ignore (p c : char) : bool :=
  if is_ascii p then
    if ascii_isalpha p then
      if is_ascii c then (ascii_lower c =? ascii_lower p)%N else ignore_ext p c
    else (c =? p)%N
  else ignore_ext p c.

(** [str.upper()] *)
Definition upper (s : str) : str :=
  flat_map (fun c => if is_ascii c then [ascii_upper c] else upper_ext c) s.

Fixpoint lower_from (before : str) (s : str) : str :=
  match s with
  | [] => []
  | c :: s' =>
      (if is_ascii c then [ascii_lower c] else lower_ext (rev before) c s')
      ++ lower_from (c :: before) s'
  end.

(** [str.lower()] *)
Definition lower (s : str) : str := lower_from [] s.
End Unicode.

(** ** The [re] module *)

Inductive category := CatSpace | CatDigit.

(** A member of a [[...]] set. *)
Inductive citem :=
| ILit (c : char)
| ICat (k : category).

(** What matches one character. *)
Inductive atom :=
| Lit (c : char)
| Cat (k : category)
| SetOf (negate : bool) (items : list citem).

Inductive node :=
| One (a : atom)
| Rep (greedy : bool) (lo : nat) (hi : option nat) (a : atom)
| WordBoundary
| GroupOpen (name : string)
| GroupClose (name : string).

Record regex := { re_nodes : list node; re_ignorecase : bool }.

Definition opt (a : atom) : node := Rep true 0 (Some 1) a.
Definition star (a : atom) : node := Rep true 0 None a.
Definition plus (a : atom) : node := Rep true 1 None a.
Definition plus_lazy (a : atom) : node := Rep false 1 None a.
Definition exactly (n : nat) (a : atom) : node := Rep true n (Some n) a.
Definition lits (s : string) : list node := map (fun c => One (Lit c)) (u s).
Definition lit1 (s : string) : atom := Lit (hd 0%N (u s)).
Arguments lits s%_string.
Arguments lit1 s%_string.
Arguments GroupOpen name%_string.
Arguments GroupClose name%_string.

(** A mark is the name of a group, whether it is its closing mark, and the
    text that was still ahead when the matcher passed it. *)
Definition marks := list (string * bool * str).

Fixpoint find_mark (name : string) (closing : bool) (g : marks) : option str :=
  match g with
  | [] => None
  | (n, b, rest) :: g' =>
      if String.eqb n name && Bool.eqb b closing then Some rest
      else find_mark name closing g'
  end.

(** The part of [from] that lies before its suffix [rest]. *)
Definition between (from rest : str) : str :=
  firstn (length from - length rest) from.

(** A continuation takes the character before the current position, the
    text ahead and the marks, and gives the text left after the whole match
    with the final marks. *)
Definition cont := option char -> str -> marks -> option (str * marks).

Definition hi_allows (hi : option nat) : bool :=
  match hi with Some 0 => false | _ => true end.

Section Matcher.
Context {db : UnicodeDB}.
Variable ic : bool.

Definition lit_match (p c : char) : bool :=
  if ic then lit_ignore p c else (c =? p)%N.

Definition cat_match (k : category) (c : char) : bool :=
  match k with
  | CatSpace => isspace c
  | CatDigit => isdecimal c
  end.

Definition item_match (c : char) (i : citem) : bool :=
  match i with
  | ILit p => lit_match p c
  | ICat k => cat_match k c
  end.

Definition atom_match (a : atom) (c : char) : bool :=
  match a with
  | Lit p => lit_match p c
  | Cat k => cat_match k c
  | SetOf negate items => xorb negate (existsb (item_match c) items)
  end.

(** Greedy repetition: take one more character while that is possible, and
    fall back to stopping here when the rest fails. *)
Fixpoint rep_greedy (a : atom) (k : cont) (lo : nat) (hi : option nat)
    (prev : option char) (s : str) (g : marks) {struct s} : option (str * marks) :=
  match s with
  | c :: s' =>
      if hi_allows hi && atom_match a c then
        match rep_greedy a k (pred lo) (option_map pred hi) (Some c) s' g with
        | Some r => Some r
        | None => if lo =? 0 then k prev s g else None
        end
      else if lo =? 0 then k prev s g else None
  | [] => if lo =? 0 then k prev s g else None
  end.

(** Lazy repetition: stop as soon as the rest matches, and take one more
    character only when it does not. *)
Fixpoint rep_lazy (a : atom) (k : cont) (lo : nat) (hi : option nat)
    (prev : option char) (s : str) (g : marks) {struct s} : option (str * marks) :=
  match (if lo =? 0 then k prev s g else None) with
  | Some r => Some r
  | None =>
      match s with
      | c :: s' =>
          if hi_allows hi && atom_match a c
          then rep_lazy a k (pred lo) (option_map pred hi) (Some c) s' g
          else None
      | [] => None
      end
  end.

Definition opt_isword (c : option char) : bool :=
  match c with Some c => isword c | None => false end.

Definition node_cont (n : node) (k : cont) : cont :=
  fun prev s g =>
    match n with
    | One a =>
        match s with
        | c :: s' => if atom_match a c then k (Some c) s' g else None
        | [] => None
        end
    | Rep true lo hi a => rep_greedy a k lo hi prev s g
    | Rep false lo hi a => rep_lazy a k lo hi prev s g
    | WordBoundary =>
        if xorb (opt_isword prev) (opt_isword (hd_error s)) then k prev s g else None
    | GroupOpen name => k prev s ((name, false, s) :: g)
    | GroupClose name => k prev s ((name, true, s) :: g)
    end.

Definition run (ns : list node) (k : cont) : cont := fold_right node_cont k ns.
End Matcher.

(** The end of a pattern; with [noempty] an empty match is refused, so that
    the matcher backtracks into a longer one. *)
Definition accept (from : str) (noempty : bool) : cont :=
  fun _ s g =>
    if noempty && (length s =? length from) then None else Some (s, g).

(** A match object: the text from the start of the match on, the text after
    the match, and the marks. *)
Record rmatch := { m_from : str; m_rest : str; m_marks : marks }.

(** [m.group(0)] *)
Definition group0 (m : rmatch) : str := between (m_from m) (m_rest m).

(** [m.group(name)], for a group that took part in the match. *)
Definition group (m : rmatch) (name : string) : str :=
  match find_mark name false (m_marks m), find_mark name true (m_marks m) with
  | Some a, Some b => between a b
  | _, _ => []
  end.
Arguments group m name%_string.

Section Re.
Context {db : UnicodeDB}.
Variable re : regex.

(** The pattern tried at one position. *)
Definition match_at (noempty : bool) (prev : option char) (s : str)
  : option (str * marks) :=
  run (re_ignorecase re) (re_nodes re) (accept s noempty) prev s [].

Fixpoint search_from (prev : option char) (s : str) : option rmatch :=
  match match_at false prev s with
  | Some (rest, g) => Some {| m_from := s; m_rest := rest; m_marks := g |}
  | None =>
      match s with
      | [] => None
      | c :: s' => search_from (Some c) s'
      end
  end.

(** [re.search(s)]: the leftmost match. *)
Definition re_search (s : str) : option rmatch := search_from None s.

(** [re.sub(repl, s)], left to right over the positions of [s]; [skip]
    counts the characters ahead that the last match has consumed.  After
    an empty match the pattern is tried again at the same position for a
    match that is not empty. *)
Fixpoint sub_from (repl : str) (prev : option char) (s : str) (skip : nat)
    {struct s} : str :=
  match skip with
  | S k =>
      match s with
      | c :: s' => sub_from repl (Some c) s' k
      | [] => []
      end
  | O =>
      match match_at false prev s with
      | None =>
          match s with
          | c :: s' => c :: sub_from repl (Some c) s' 0
          | [] => []
          end
      | Some (rest, _) =>
          if length rest <? length s then
            repl ++ match s with
                    | c :: s' => sub_from repl (Some c) s' (length s' - length rest)
                    | [] => []
                    end
          else
            repl ++ match match_at true prev s with
                    | Some (rest', _) =>
                        repl ++ match s with
                                | c :: s' =>
                                    sub_from repl (Some c) s' (length s' - length rest')
                                | [] => []
                                end
                    | None =>
                        match s with
                        | c :: s' => c :: sub_from repl (Some c) s' 0
                        | [] => []
                        end
                    end
      end
  end.

Definition re_sub (repl : str) (s : str) : str := sub_from repl None s 0.
End Re.

(** ** Python built-ins used by [renamer.py] *)

Fixpoint drop_while (f : char -> bool) (s : str) : str :=
  match s with
  | c :: s' => if f c then drop_while f s' else s
  | [] => []
  end.

Definition lstrip (s : str) : str := drop_while isspace s.

Definition rstrip (s : str) : str := rev (lstrip (rev s)).

(** [s.strip()] *)
Definition strip (s : str) : str := rstrip (lstrip s).

(** [s.replace(old, new)] for a one-character [old]. *)
Definition replace (old : char) (new : str) (s : str) : str :=
  flat_map (fun c => if (c =? old)%N then new else [c]) s.

(** [sep.join(xs)] *)
Fixpoint join (sep : str) (xs : list str) : str :=
  match xs with
  | [] => []
  | x :: xs' =>
      match xs' with
      | [] => x
      | _ :: _ => x ++ sep ++ join sep xs'
      end
  end.

(** [s.endswith(suffix)] *)
Definition endswith (s suffix : str) : bool :=
  (length suffix <=? length s)
  && str_eqb (skipn (length s - length suffix) s) suffix.

(** Truth of an optional string: [None] and [""] are false. *)
Definition truthy (o : option str) : bool :=
  match o with
  | Some (_ :: _) => true
  | _ => false
  end.

(** [x or None] *)
Definition or_None (o : option str) : option str := if truthy o then o else None.

(** [x or ""] *)
Definition or_empty (o : option str) : str :=
  match o with
  | Some s => s
  | None => []
  end.

Fixpoint uint_chars (d : Decimal.uint) : str :=
  match d with
  | Decimal.Nil => []
  | Decimal.D0 d => 48%N :: uint_chars d
  | Decimal.D1 d => 49%N :: uint_chars d
  | Decimal.D2 d => 50%N :: uint_chars d
  | Decimal.D3 d => 51%N :: uint_chars d
  | Decimal.D4 d => 52%N :: uint_chars d
  | Decimal.D5 d => 53%N :: uint_chars d
  | Decimal.D6 d => 54%N :: uint_chars d
  | Decimal.D7 d => 55%N :: uint_chars d
  | Decimal.D8 d => 56%N :: uint_chars d
  | Decimal.D9 d => 57%N :: uint_chars d
  end.

(** [str(i)] of a natural number, as an f-string formats it. *)
Definition str_of_nat (i : nat) : str := uint_chars (Nat.to_uint i).

(** [p.rfind(c)]: the index of the last [c] in [p], or -1. *)
Fixpoint rfind_from (c : char) (p : str) (i last : Z) : Z :=
  match p with
  | [] => last
  | x :: p' => rfind_from c p' (i + 1)%Z (if (x =? c)%N then i else last)
  end.

Definition rfind (c : char) (p : str) : Z := rfind_from c p 0%Z (-1)%Z.

(** The loop of [genericpath._splitext] that skips the leading dots of the
    file name; [n] is the number of indices left before [dotIndex]. *)
Fixpoint skip_leading_dots (p : str) (extsep : char) (filenameIndex dotIndex : Z)
    (n : nat) : str * str :=
  match n with
  | O => (p, [])
  | S n' =>
      match nth_error p (Z.to_nat filenameIndex) with
      | Some c =>
          if negb (c =? extsep)%N
          then (firstn (Z.to_nat dotIndex) p, skipn (Z.to_nat dotIndex) p)
          else skip_leading_dots p extsep (filenameIndex + 1)%Z dotIndex n'
      | None => (firstn (Z.to_nat dotIndex) p, skipn (Z.to_nat dotIndex) p)
      end
  end.

(** [genericpath._splitext(p, sep, altsep, extsep)] *)
Definition _splitext (p : str) (sep : char) (altsep : option char) (extsep : char)
  : str * str :=
  let sepIndex := rfind sep p in
  let sepIndex :=
    match altsep with
    | Some a => Z.max sepIndex (rfind a p)
    | None => sepIndex
    end in
  let dotIndex := rfind extsep p in
  if (sepIndex <? dotIndex)%Z then
    skip_leading_dots p extsep (sepIndex + 1)%Z dotIndex
      (Z.to_nat (dotIndex - (sepIndex + 1)))
  else (p, []).

(** [os.path.splitext] of [posixpath]. *)
Definition splitext (p : str) : str * str := _splitext p chr_slash None chr_dot.

(** ** The patterns of [renamer.py] *)

(** [r"\(?\s*Referensi:?\s*(?P<ref>[^)\n\r]+?)\s*\)?"], IGNORECASE *)
Definition RE_REF : regex :=
  {| re_nodes :=
       [opt (lit1 "("); star (Cat CatSpace)] ++ lits "Referensi"
       ++ [opt (lit1 ":"); star (Cat CatSpace);
           GroupOpen "ref";
           plus_lazy (SetOf true [ILit 41%N; ILit 10%N; ILit 13%N]);
           GroupClose "ref";
           star (Cat CatSpace); opt (lit1 ")")];
     re_ignorecase := true |}.

(** [r"Kode\s+dan\s+Nomor\s+Seri\s+Faktur\s+Pajak\s*:\s*(?P<seri>[\d\.\-\s]+)"],
    IGNORECASE *)
Definition RE_SERI : regex :=
  {| re_nodes :=
       lits "Kode" ++ [plus (Cat CatSpace)] ++ lits "dan" ++ [plus (Cat CatSpace)]
       ++ lits "Nomor" ++ [plus (Cat CatSpace)] ++ lits "Seri"
       ++ [plus (Cat CatSpace)] ++ lits "Faktur" ++ [plus (Cat CatSpace)]
       ++ lits "Pajak"
       ++ [star (Cat CatSpace); One (lit1 ":"); star (Cat CatSpace);
           GroupOpen "seri";
           plus (SetOf false [ICat CatDigit; ILit chr_dot; ILit chr_dash; ICat CatSpace]);
           GroupClose "seri"];
     re_ignorecase := true |}.

(** [r"\bINV/\d{4}/\d{2}/\d{4}\b"], IGNORECASE *)
Definition RE_INV_STRICT : regex :=
  {| re_nodes :=
       [WordBoundary] ++ lits "INV/"
       ++ [exactly 4 (Cat CatDigit); One (lit1 "/"); exactly 2 (Cat CatDigit);
           One (lit1 "/"); exactly 4 (Cat CatDigit); WordBoundary];
     re_ignorecase := true |}.

(** The characters of the class that [_sanitize] replaces: backslash, slash,
    colon, star, question mark, double quote, less-than, greater-than, bar,
    CR, LF and TAB. *)
Definition illegal_chars : list char :=
  u "\/:*?" ++ [chr_quote] ++ u "<>|" ++ [13%N; 10%N; 9%N].

(** The pattern of [_sanitize]: one character of that class. *)
Definition RE_ILLEGAL : regex :=
  {| re_nodes := [One (SetOf false (map ILit illegal_chars))];
     re_ignorecase := false |}.

(** [r"\s+"] *)
Definition RE_SPACES : regex :=
  {| re_nodes := [plus (Cat CatSpace)]; re_ignorecase := false |}.

(** [r"\s*/\s*"] *)
Definition RE_AROUND_SLASH : regex :=
  {| re_nodes := [star (Cat CatSpace); One (lit1 "/"); star (Cat CatSpace)];
     re_ignorecase := false |}.

(** [r"[^\d\.\-]"] *)
Definition RE_NOT_SERI_CHAR : regex :=
  {| re_nodes := [One (SetOf true [ICat CatDigit; ILit chr_dot; ILit chr_dash])];
     re_ignorecase := false |}.

(** ** [renamer.py] *)

Record FileStorage := { filename : option str; content : list byte }.

(** What the batch does to the outside: [fs.read()] of the record at an
    index of the input, and a call of the PDF reader on some bytes. *)
Inductive event :=
| EvRead (index : nat)
| EvExtract (data : list byte).

Record batch := {
  results : list str;
  outputs : list (str * list byte);
  trace : list event
}.

Definition log (st : batch) (line : str) : batch :=
  {| results := results st ++ [line]; outputs := outputs st; trace := trace st |}.

Definition emit (st : batch) (e : event) : batch :=
  {| results := results st; outputs := outputs st; trace := trace st ++ [e] |}.

Definition append_output (st : batch) (o : str * list byte) : batch :=
  {| results := results st; outputs := outputs st ++ [o]; trace := trace st |}.

Definition empty_batch : batch := {| results := []; outputs := []; trace := [] |}.

Section Renamer.
Context {db : UnicodeDB}.

(** [PdfReader(io.BytesIO(file_bytes)).pages] with [extract_text()] of each
    page; [None] when PyPDF2 raises. *)
Variable pdf_pages : list byte -> option (list (option str)).

Definition _sanitize (s : str) : str :=
  let s := strip s in
  let s := re_sub RE_ILLEGAL (u " ") s in
  let s := re_sub RE_SPACES (u " ") s in
  s.

Definition _normalize_for_search (s : str) : str :=
  let s := re_sub RE_SPACES (u " ") s in
  let s := re_sub RE_AROUND_SLASH (u "/") s in
  s.

Definition _invoice_ref_to_filename (ref : str) (allow_unicode_slash : bool) : str :=
  if allow_unicode_slash then replace chr_slash [FULLWIDTH_SLASH] ref
  else replace chr_slash (u "-") ref.

(** Step 1 of [parse_pdf_fields]: the serial number. *)
Definition find_seri (norm : str) : option str :=
  match re_search RE_SERI norm with
  | Some m_seri =>
      let seri := group m_seri "seri" in
      let seri := re_sub RE_NOT_SERI_CHAR [] seri in
      let seri := replace chr_dash [] (replace chr_dot [] seri) in
      Some (_sanitize seri)
  | None => None
  end.

(** Step 2 of [parse_pdf_fields]: the invoice number, from the strict
    pattern first and from the [Referensi] phrase otherwise. *)
Definition find_ref (norm : str) : option str :=
  match re_search RE_INV_STRICT norm with
  | Some m_inv => Some (upper (group0 m_inv))
  | None =>
      match re_search RE_REF norm with
      | Some m_ref =>
          let candidate := _sanitize (group m_ref "ref") in
          match re_search RE_INV_STRICT candidate with
          | Some inner => Some (upper (group0 inner))
          | None => Some candidate
          end
      | None => None
      end
  end.

(** [parse_pdf_fields] from the extracted text on. *)
Definition parse_text (raw : str) : option str * option str :=
  let norm := _normalize_for_search raw in
  let seri := find_seri norm in
  let ref := find_ref norm in
  let ref :=
    if truthy ref
    then option_map (fun ref => _invoice_ref_to_filename (_sanitize ref) true) ref
    else ref in
  (or_None ref, or_None seri).

Definition parse_pdf_fields (file_bytes : list byte) : option str * option str :=
  match pdf_pages file_bytes with
  | Some pages =>
      let chunks := map or_empty pages in
      let raw := join [chr_newline] chunks in
      parse_text raw
  | None => (None, None)
  end.

Definition build_new_name (ref seri : option str) (pretty_slash : bool)
  : option str :=
  if negb (truthy ref) || negb (truthy seri) then None
  else
    match ref, seri with
    | Some ref, Some seri =>
        let ref_disp := _invoice_ref_to_filename (_sanitize ref) pretty_slash in
        let base := _sanitize (ref_disp ++ u " - " ++ seri) in
        if truthy (Some base) then Some (base ++ u ".pdf") else None
    | _, _ => None
    end.

(** The [while final in existing] loop of [process_files]; [None] when the
    fuel runs out. *)
Fixpoint dedup_loop (fuel : nat) (existing : list str) (new_name final : str)
    (i : nat) : option str :=
  if existsb (str_eqb final) existing then
    match fuel with
    | O => None
    | S fuel' =>
        let '(stem, _ext) := splitext new_name in
        dedup_loop fuel' existing new_name
          (stem ++ u " (" ++ str_of_nat i ++ u ").pdf") (S i)
    end
  else Some final.

(** The body of the [for fs in file_storages] loop, for the record at
    [index]. *)
Definition process_one (dry_run : bool) (index : nat) (fs : FileStorage)
    (st : batch) : option batch :=
  let fname := or_empty (filename fs) in
  if negb (endswith (lower fname) (u ".pdf")) then
    Some (log st (u "❌ Bukan PDF: " ++ fname))
  else
    let st := emit st (EvRead index) in
    let data := content fs in
    match data with
    | [] => Some (log st (u "❌ File kosong: " ++ fname))
    | _ :: _ =>
        let st := emit st (EvExtract data) in
        let '(ref, seri) := parse_pdf_fields data in
        let new_name := build_new_name ref seri true in
        if truthy new_name then
          match new_name with
          | Some new_name =>
              let existing := map fst (outputs st) in
              match dedup_loop (S (length existing)) existing new_name new_name 1 with
              | Some final =>
                  let st := log st (u "✅ " ++ fname ++ u " → " ++ final) in
                  Some (if dry_run then st else append_output st (final, data))
              | None => None
              end
          | None => None
          end
        else if negb (truthy ref) && negb (truthy seri) then
          Some (log st (u "⚠️ " ++ fname ++ u ": Referensi & Nomor Seri tidak ditemukan."))
        else if negb (truthy ref) then
          Some (log st (u "⚠️ " ++ fname ++ u ": Referensi tidak ditemukan."))
        else
          Some (log st (u "⚠️ " ++ fname ++ u ": Nomor Seri Faktur Pajak tidak ditemukan."))
    end.

Fixpoint process_from (dry_run : bool) (index : nat) (file_storages : list FileStorage)
    (st : batch) : option batch :=
  match file_storages with
  | [] => Some st
  | fs :: rest =>
      match process_one dry_run index fs st with
      | Some st' => process_from dry_run (S index) rest st'
      | None => None
      end
  end.

(** The whole batch, with the trace of what it did. *)
Definition run_batch (file_storages : list FileStorage) (dry_run : bool)
  : option batch :=
  process_from dry_run 0 file_storages empty_batch.

(** [process_files(file_storages, dry_run)]: the log and the outputs. *)
Definition process_files (file_storages : list FileStorage) (dry_run : bool)
  : option (list str * list (str * list byte)) :=
  option_map (fun st => (results st, outputs st)) (run_batch file_storages dry_run).
End Renamer.

(** ** Auxiliary functions of the statements *)

(** A run of white space replaced by one space; [in_run] says that the
    previous character was white space. *)
Fixpoint collapse (in_run : bool) (s : str) : str :=
  match s with
  | [] => []
  | c :: s' =>
      if isspace c then
        if in_run then collapse true s' else chr_space :: collapse true s'
      else c :: collapse false s'
  end.

Definition is_illegal (c : char) : bool := existsb (N.eqb c) illegal_chars.

Definition blank_illegal (c : char) : char := if is_illegal c then chr_space else c.

Definition starts_with (f : char -> bool) (s : str) : bool :=
  match s with
  | c :: _ => f c
  | [] => false
  end.

Definition ends_with (f : char -> bool) (s : str) : bool := starts_with f (rev s).

(** No two neighbours of [s] form a pair that [bad] rejects. *)
Fixpoint no_adjacent (bad : char -> char -> bool) (s : str) : bool :=
  match s with
  | [] => true
  | x :: s' => negb (starts_with (bad x) s') && no_adjacent bad s'
  end.

Definition is_slash (c : char) : bool := (c =? chr_slash)%N.

Definition space_pair (x y : char) : bool := isspace x && isspace y.

(** Two white-space characters in a row, or white space beside a slash. *)
Definition untidy_pair (x y : char) : bool :=
  isspace x && isspace y || isspace x && is_slash y || is_slash x && isspace y.

(** Whether [s] ends inside a run of white space, [d] saying so for the text
    before [s]. *)
Fixpoint ends_from (d : bool) (s : str) : bool :=
  match s with
  | [] => d
  | c :: s' => ends_from (isspace c) s'
  end.

(** A character that [_sanitize] leaves as it is. *)
Definition tidy_char (c : char) : bool :=
  negb (is_illegal c) && (negb (isspace c) || (c =? chr_space)%N).

(** A string of such characters with no two spaces in a row. *)
Definition tidy (s : str) : bool := forallb tidy_char s && no_adjacent space_pair s.

(** An illegal character at either end of the trimmed string. *)
Definition illegal_edge (x : str) : bool :=
  starts_with is_illegal (strip x) || ends_with is_illegal (strip x).

(** What a match leaves is a suffix of what it started on. *)
Definition leaves_suffix (k : cont) : Prop :=
  forall prev s g rest g', k prev s g = Some (rest, g') -> exists w, s = w ++ rest.

(** The names the collision loop tries for [new_name]: the name itself, then
    its stem with [" (1)"], [" (2)"], ... before [".pdf"]. *)
Definition numbered (new_name : str) (k : nat) : str :=
  match k with
  | O => new_name
  | S _ => fst (splitext new_name) ++ u " (" ++ str_of_nat k ++ u ").pdf"
  end.

(** The text of the first end-to-end case of the specification. *)
Definition example_text : str :=
  u "Kode dan Nomor Seri Faktur Pajak: 123.456-789" ++ [chr_newline]
  ++ u "(Referensi: INV/2025/09/0654)".

Section Outcomes.
Context {db : UnicodeDB}.
Variable pdf_pages : list byte -> option (list (option str)).

(** Whether the name of a record passes the extension test. *)
Definition named_pdf (fs : FileStorage) : bool :=
  endswith (lower (or_empty (filename fs))) (u ".pdf").

(** The name composed for a record. *)
Definition composed_name (fs : FileStorage) : option str :=
  let '(ref, seri) := parse_pdf_fields pdf_pages (content fs) in
  build_new_name ref seri true.

(** The log line of a record, [final] being the name it ends up with when
    one is composed. *)
Definition log_line (fs : FileStorage) (final : str) : str :=
  let fname := or_empty (filename fs) in
  if negb (named_pdf fs) then u "❌ Bukan PDF: " ++ fname
  else
    match content fs with
    | [] => u "❌ File kosong: " ++ fname
    | _ :: _ =>
        let '(ref, seri) := parse_pdf_fields pdf_pages (content fs) in
        if truthy (build_new_name ref seri true)
        then u "✅ " ++ fname ++ u " → " ++ final
        else if negb (truthy ref) && negb (truthy seri)
        then u "⚠️ " ++ fname ++ u ": Referensi & Nomor Seri tidak ditemukan."
        else if negb (truthy ref)
        then u "⚠️ " ++ fname ++ u ": Referensi tidak ditemukan."
        else u "⚠️ " ++ fname ++ u ": Nomor Seri Faktur Pajak tidak ditemukan."
    end.
End Outcomes.

(** The stem [base] of a name with [" (k)"] put before [".pdf"]; the bare
    name for [k = 0]. *)
Definition suffixed (base : str) (k : nat) : str :=
  match k with
  | O => base ++ u ".pdf"
  | S _ => base ++ u " (" ++ str_of_nat k ++ u ").pdf"
  end.

(** The log line of a record that ends up with the name [final]. *)
Definition ok_line (fs : FileStorage) (final : str) : str :=
  u "✅ " ++ or_empty (filename fs) ++ u " → " ++ final.

(** The state after a record for which a name was composed: its content was
    read and handed to the PDF reader, the success line was logged, and
    outside a dry run the pair was appended to the outputs. *)
Definition accepted (st : batch) (index : nat) (fs : FileStorage) (final : str)
    (dry_run : bool) : batch :=
  let st := emit (emit st (EvRead index)) (EvExtract (content fs)) in
  let st := log st (ok_line fs final) in
  if dry_run then st else append_output st (final, content fs).

(** Sample inputs: a PDF reader that finds the example text in every file,
    and a few records. *)
Module Samples.
Definition pages (_ : list byte) : option (list (option str)) :=
  Some [Some example_text].
Definition file_a : FileStorage := {| filename := Some (u "a.pdf"); content := [x01] |}.
Definition file_b : FileStorage := {| filename := Some (u "B.PDF"); content := [x02] |}.
Definition notes : FileStorage := {| filename := Some (u "notes.txt"); content := [x03] |}.
Definition base : str := u "INV 2025 09 0654 - 123456789".
Definition name : str := base ++ u ".pdf".
Definition one_output : batch :=
  {| results := []; outputs := [(name, [x01])]; trace := [] |}.
End Samples.

(** ** [app.py] *)

(** What [upload_file] reads of the request: [request.files.getlist('file')]
    and [request.form.get('dry_run')]. *)
Record request := { form_files : list FileStorage; form_dry_run : option str }.

(** [zipfile], as far as [upload_file] uses it. The library is not part of
    the repository, and what it makes of an entry is its own business (it cuts
    a name at its first NUL, refuses a name it cannot encode, stamps the entry
    with the time of day), so it is taken as given: [ZipFile_w] is
    [zipfile.ZipFile(buff, 'w', zipfile.ZIP_DEFLATED)] over an empty buffer,
    [writestr zf name blob] is the archive after [zf.writestr(name, blob)],
    and [zip_close zf] is what the buffer holds once the [with] block is
    left. A call that raises gives [None]. *)
Class ZipLib := {
  zip_file : Type;
  ZipFile_w : zip_file;
  writestr : zip_file -> str -> list byte -> option zip_file;
  zip_close : zip_file -> option (list byte)
}.

(** The loop [for name, blob in outputs: zf.writestr(name, blob)]; it stops
    at the first call that raises. *)
Fixpoint write_all {zl : ZipLib} (zf : zip_file) (outputs : list (str * list byte))
    : option zip_file :=
  match outputs with
  | [] => Some zf
  | (name, blob) :: rest =>
      match writestr zf name blob with
      | Some zf' => write_all zf' rest
      | None => None
      end
  end.

(** The [with] block of [upload_file]: the bytes of the archive, or [None]
    when the library raised. *)
Definition zip_in_memory {zl : ZipLib} (outputs : list (str * list byte))
    : option (list byte) :=
  match write_all ZipFile_w outputs with
  | Some zf => zip_close zf
  | None => None
  end.

(** What [send_file] is given: the bytes of one PDF, or the buffer that
    [zipfile] filled. *)
Inductive attachment :=
| PdfBytes (blob : list byte)
| ZipBuffer (buff : list byte).

(** How the handler ends: with the call it returns, with [abort], or with an
    exception of the zip library that nothing catches. *)
Inductive response :=
| Abort (status : nat) (description : str)
| RenderTemplate (template : str) (logs : list str)
| SendFile (body : attachment) (download_name : str) (mimetype : str)
| Raises.

Section App.
Context {db : UnicodeDB} {zl : ZipLib}.
Variable pdf_pages : list byte -> option (list (option str)).

(** The last branch of [upload_file]: the archive of [outputs] is built in
    memory and sent, unless the library raised on the way. *)
Definition send_zip (outputs : list (str * list byte)) : response :=
  match zip_in_memory outputs with
  | Some buff => SendFile (ZipBuffer buff) (u "renamed_pdfs.zip") (u "application/zip")
  | None => Raises
  end.

(** The POST handler; [None] only if [process_files] gave nothing. *)
Definition upload_file (req : request) : option response :=
  let files := form_files req in
  let dry_run := truthy (form_dry_run req) in
  match files with
  | [] => Some (Abort 400 (u "Tidak ada file yang diupload."))
  | _ :: _ =>
      match process_files pdf_pages files dry_run with
      | Some (results, outputs) =>
          if dry_run then Some (RenderTemplate (u "result.html") results)
          else
            match outputs with
            | [] => Some (RenderTemplate (u "result.html") results)
            | [(name, blob)] =>
                Some (SendFile (PdfBytes blob) name (u "application/pdf"))
            | _ :: _ :: _ => Some (send_zip outputs)
            end
      | None => None
      end
  end.
End App.

(** ** Further auxiliary functions of the statements *)

(** A character that is neither white space nor illegal in a file name. *)
Definition visible (c : char) : bool := negb (isspace c) && negb (is_illegal c).

Definition not_space (c : char) : bool := negb (isspace c).

(** Every white-space character of [s] is the plain space. *)
Definition plain_spaces (s : str) : bool :=
  forallb (fun c => negb (isspace c) || (c =? chr_space)%N) s.

(** A name that a file system takes: no illegal character, and [".pdf"] at
    its end. *)
Definition safe_name (n : str) : bool :=
  forallb (fun c => negb (is_illegal c)) n && endswith n (u ".pdf").

Section MoreOutcomes.
Context {db : UnicodeDB}.
Variable pdf_pages : list byte -> option (list (option str)).

(** The records for which a name is composed. *)
Definition accepts (fs : FileStorage) : bool :=
  named_pdf fs
  && match content fs with [] => false | _ :: _ => true end
  && truthy (composed_name pdf_pages fs).

(** The log line of a record in a dry run. *)
Definition dry_line (fs : FileStorage) : str :=
  log_line pdf_pages fs (or_empty (composed_name pdf_pages fs)).

(** What the batch does to the outside for the record at [index]. *)
Definition record_events (index : nat) (fs : FileStorage) : list event :=
  if negb (named_pdf fs) then []
  else
    match content fs with
    | [] => [EvRead index]
    | _ :: _ => [EvRead index; EvExtract (content fs)]
    end.

Fixpoint events_from (index : nat) (files : list FileStorage) : list event :=
  match files with
  | [] => []
  | fs :: rest => record_events index fs ++ events_from (S index) rest
  end.
End MoreOutcomes.

(** A file that is not a PDF by its name, and two more sample records. *)
Module MoreSamples.
Definition blank_pages (_ : list byte) : option (list (option str)) :=
  Some [Some (u "  "); None; Some []].
Definition failing (_ : list byte) : option (list (option str)) := None.
Definition file_c : FileStorage := {| filename := Some (u "c.pdf"); content := [x04] |}.
Definition empty_file : FileStorage := {| filename := Some (u "e.pdf"); content := [] |}.

(** What is left of a name cut at its first NUL. *)
Fixpoint until_nul (name : str) : str :=
  match name with
  | [] => []
  | c :: rest => if (c =? 0)%N then [] else c :: until_nul rest
  end.

(** A zip library for the examples. It keeps the entries in the order they
    are written, each under its name cut at the first NUL, and raises when
    nothing of a name is left; its buffer holds the contents of the entries
    one after the other. *)
Definition list_zip : ZipLib :=
  {| zip_file := list (str * list byte);
     ZipFile_w := [];
     writestr := fun zf name blob =>
       match until_nul name with
       | [] => None
       | c :: rest => Some (zf ++ [(c :: rest, blob)])
       end;
     zip_close := fun zf => Some (concat (map snd zf)) |}.

(** A PDF reader that finds a serial and, as its reference, the character
    NUL in every file. *)
Definition nul_pages (_ : list byte) : option (list (option str)) :=
  Some [Some (u "Kode dan Nomor Seri Faktur Pajak: 12 (Referensi: " ++ [0%N] ++ u ")")].
End MoreSamples.

(** ** The patterns read as sets of strings *)

Definition hi_bound (hi : option nat) (n : nat) : Prop :=
  match hi with
  | Some h => n <= h
  | None => True
  end.

Section Language.
Context {db : UnicodeDB}.
Variable ic : bool.

(** The strings a sequence of nodes stands for, word boundaries and group
    marks left aside. *)
Fixpoint matches_nodes (ns : list node) (w : str) : Prop :=
  match ns with
  | [] => w = []
  | One a :: ns' =>
      exists c w', w = c :: w' /\ atom_match ic a c = true /\ matches_nodes ns' w'
  | Rep _ lo hi a :: ns' =>
      exists w1 w2,
        w = w1 ++ w2 /\ lo <= length w1 /\ hi_bound hi (length w1)
        /\ forallb (atom_match ic a) w1 = true /\ matches_nodes ns' w2
  | WordBoundary :: ns' => matches_nodes ns' w
  | GroupOpen _ :: ns' => matches_nodes ns' w
  | GroupClose _ :: ns' => matches_nodes ns' w
  end.
End Language.

(** Whatever a continuation consumes satisfies [P]. *)
Definition consumes (P : str -> Prop) (k : cont) : Prop :=
  forall prev s g rest g',
    k prev s g = Some (rest, g') -> exists w, s = w ++ rest /\ P w.

(** The marks a continuation ends with are related by [Q] to those it
    started with. *)
Definition marks_post (Q : marks -> marks -> Prop) (k : cont) : Prop :=
  forall prev s g rest g', k prev s g = Some (rest, g') -> Q g g'.

(** A continuation that succeeds wherever it starts, leaving the marks
    alone. *)
Definition always_accepts (k : cont) : Prop :=
  forall prev s g, exists rest, k prev s g = Some (rest, g).

Definition no_group (n : node) : bool :=
  match n with
  | GroupOpen _ | GroupClose _ => false
  | _ => true
  end.

(** The shape of a match of the strict pattern: three characters that are
    [INV] up to case, and [/dddd/dd/dddd] in decimal digits. *)
Definition is_strict_ref {db : UnicodeDB} (w : str) : bool :=
  match w with
  | [i; n; v; s1; y1; y2; y3; y4; s2; m1; m2; s3; n1; n2; n3; n4] =>
      lit_ignore 73%N i && lit_ignore 78%N n && lit_ignore 86%N v
      && is_slash s1 && is_slash s2 && is_slash s3
      && forallb isdecimal [y1; y2; y3; y4; m1; m2; n1; n2; n3; n4]
  | _ => false
  end.

(** * Properties *)

(** ** Lists and strings *)

Lemma drop_while_length f s : length (drop_while f s) <= length s.
Proof.
  induction s as [|c s IH]; simpl; [lia|].
  destruct (f c); simpl; lia.
Qed.

Lemma drop_while_none f s : forallb (fun c => negb (f c)) s = true -> drop_while f s = s.
Proof.
  destruct s as [|c s]; simpl; [reflexivity|].
  destruct (f c); simpl; [discriminate | reflexivity].
Qed.

Lemma drop_while_head f s c s' : drop_while f s = c :: s' -> f c = false.
Proof.
  induction s as [|x s IH]; simpl; [discriminate|].
  destruct (f x) eqn:E; [exact IH|].
  intros H; injection H as -> _; exact E.
Qed.

Lemma drop_while_idem f s : drop_while f (drop_while f s) = drop_while f s.
Proof.
  induction s as [|x s IH]; simpl; [reflexivity|].
  destruct (f x) eqn:E; [exact IH|].
  simpl; rewrite E; reflexivity.
Qed.

Lemma drop_while_suffix f s : exists w, s = w ++ drop_while f s /\ forallb f w = true.
Proof.
  induction s as [|x s [w [Hw Hf]]]; simpl.
  - exists []; split; reflexivity.
  - destruct (f x) eqn:E.
    + exists (x :: w); simpl; rewrite E, Hf; split; [f_equal; exact Hw | reflexivity].
    + exists []; split; reflexivity.
Qed.

Lemma str_eqb_eq a b : str_eqb a b = true <-> a = b.
Proof.
  unfold str_eqb; destruct (list_eq_dec N.eq_dec a b); split; congruence.
Qed.

Lemma str_eqb_refl a : str_eqb a a = true.
Proof. apply str_eqb_eq; reflexivity. Qed.

(** ** The matcher *)

Section MatcherFacts.
Context {db : UnicodeDB}.
Variable ic : bool.
Variable a : atom.

(** A greedy repetition at the end of a pattern takes the longest run. *)
Lemma rep_greedy_accept from lo prev s g :
  rep_greedy ic a (accept from false) lo None prev s g =
  if lo <=? length s - length (drop_while (atom_match ic a) s)
  then Some (drop_while (atom_match ic a) s, g) else None.
Proof.
  revert lo prev; induction s as [|c s IH]; intros lo prev.
  - destruct lo; reflexivity.
  - pose proof (drop_while_length (atom_match ic a) s) as Hl.
    cbn [rep_greedy drop_while hi_allows andb].
    destruct (atom_match ic a c) eqn:E.
    + rewrite IH. cbn [length].
      destruct (Nat.leb_spec (pred lo) (length s - length (drop_while (atom_match ic a) s)));
        destruct (Nat.leb_spec lo (S (length s) - length (drop_while (atom_match ic a) s)));
        try reflexivity; try lia.
      destruct lo; [lia | reflexivity].
    + rewrite Nat.sub_diag. destruct lo; reflexivity.
Qed.

(** A greedy star whose continuation cannot start on a character of the
    class commits to the longest run. *)
Lemma rep_greedy_commit (k : cont) prev s g :
  (forall p c s' g', atom_match ic a c = true -> k p (c :: s') g' = None) ->
  (forall p p' s' g', k p s' g' = k p' s' g') ->
  rep_greedy ic a k 0 None prev s g = k prev (drop_while (atom_match ic a) s) g.
Proof.
  intros Hfail Hprev.
  revert prev; induction s as [|c s IH]; intros prev; simpl; [reflexivity|].
  destruct (atom_match ic a c) eqn:E; simpl; [|reflexivity].
  rewrite IH.
  rewrite (Hprev (Some c) prev).
  destruct (k prev (drop_while (atom_match ic a) s) g) eqn:K; [reflexivity|].
  apply Hfail; exact E.
Qed.
End MatcherFacts.

Section SubFacts.
Context {db : UnicodeDB}.
Variable re : regex.
Variable repl : str.

(** Skipping the characters a match has consumed. *)
Lemma sub_from_skip s k prev :
  k <= length s ->
  exists prev', sub_from re repl prev s k = sub_from re repl prev' (skipn k s) 0.
Proof.
  revert k prev; induction s as [|c s IH]; intros k prev Hk.
  - simpl in Hk. assert (k = 0) by lia; subst. exists prev; reflexivity.
  - destruct k as [|k].
    + exists prev; reflexivity.
    + simpl in Hk. destruct (IH k (Some c)) as [p Hp]; [lia|].
      exists p. simpl. exact Hp.
Qed.

(** One step of [re.sub] where the pattern does not match. *)
Lemma sub_from_miss prev c s :
  match_at re false prev (c :: s) = None ->
  sub_from re repl prev (c :: s) 0 = c :: sub_from re repl (Some c) s 0.
Proof. intros H. simpl. rewrite H. reflexivity. Qed.

(** One step of [re.sub] where the pattern matches up to [rest]. *)
Lemma sub_from_hit prev s rest g :
  match_at re false prev s = Some (rest, g) ->
  (exists w, s = w ++ rest /\ w <> []) ->
  exists prev', sub_from re repl prev s 0 = repl ++ sub_from re repl prev' rest 0.
Proof.
  intros H [w [Hs Hw]].
  destruct s as [|c s]; [destruct w; [congruence | discriminate]|].
  destruct w as [|x w]; [congruence|].
  simpl in Hs. injection Hs as -> Hs.
  destruct (sub_from_skip s (length s - length rest) (Some x)) as [p Hp]; [lia|].
  exists p.
  cbn [sub_from]. rewrite H.
  assert (Hlt : (length rest <? length (x :: s)) = true).
  { apply Nat.ltb_lt. subst s. simpl. rewrite length_app. lia. }
  rewrite Hlt. f_equal. rewrite Hp. f_equal.
  subst s. rewrite length_app.
  replace (length w + length rest - length rest) with (length w) by lia.
  rewrite skipn_app, skipn_all, Nat.sub_diag. reflexivity.
Qed.
End SubFacts.

Lemma accept_leaves_suffix from noempty : leaves_suffix (accept from noempty).
Proof.
  intros prev s g rest g'. unfold accept.
  destruct (noempty && (length s =? length from)); [discriminate|].
  intros H; injection H as <- _. exists []; reflexivity.
Qed.

Section SuffixFacts.
Context {db : UnicodeDB}.
Variable ic : bool.

Lemma rep_greedy_leaves_suffix a k :
  leaves_suffix k -> forall lo hi, leaves_suffix (rep_greedy ic a k lo hi).
Proof.
  intros Hk lo hi prev s. revert lo hi prev.
  induction s as [|c s IH]; intros lo hi prev g rest g'; cbn [rep_greedy].
  - destruct (lo =? 0); [apply Hk | discriminate].
  - destruct (hi_allows hi && atom_match ic a c).
    + destruct (rep_greedy ic a k (pred lo) (option_map pred hi) (Some c) s g)
        as [[r1 g1]|] eqn:E.
      * intros H; injection H as <- <-. destruct (IH _ _ _ _ _ _ E) as [w ->].
        exists (c :: w); reflexivity.
      * destruct (lo =? 0); [apply Hk | discriminate].
    + destruct (lo =? 0); [apply Hk | discriminate].
Qed.

Lemma rep_lazy_leaves_suffix a k :
  leaves_suffix k -> forall lo hi, leaves_suffix (rep_lazy ic a k lo hi).
Proof.
  intros Hk lo hi prev s. revert lo hi prev.
  induction s as [|c s IH]; intros lo hi prev g rest g'; cbn [rep_lazy].
  - destruct (lo =? 0); [|discriminate].
    destruct (k prev [] g) as [[r1 g1]|] eqn:E; [|discriminate].
    intros H; injection H as <- <-. exact (Hk _ _ _ _ _ E).
  - assert (Hmore : (if hi_allows hi && atom_match ic a c
                     then rep_lazy ic a k (pred lo) (option_map pred hi) (Some c) s g
                     else None) = Some (rest, g') -> exists w, c :: s = w ++ rest).
    { destruct (hi_allows hi && atom_match ic a c); [|discriminate].
      intros H. destruct (IH _ _ _ _ _ _ H) as [w ->]. exists (c :: w); reflexivity. }
    destruct (lo =? 0); [|exact Hmore].
    destruct (k prev (c :: s) g) as [[r1 g1]|] eqn:E; [|exact Hmore].
    intros H; injection H as <- <-. exact (Hk _ _ _ _ _ E).
Qed.

Lemma node_cont_leaves_suffix n k : leaves_suffix k -> leaves_suffix (node_cont ic n k).
Proof.
  intros Hk. destruct n as [a|[|] lo hi a| |name|name].
  - intros prev [|c s] g rest g'; cbn [node_cont]; [discriminate|].
    destruct (atom_match ic a c); [|discriminate].
    intros H. destruct (Hk _ _ _ _ _ H) as [w ->]. exists (c :: w); reflexivity.
  - exact (rep_greedy_leaves_suffix a k Hk lo hi).
  - exact (rep_lazy_leaves_suffix a k Hk lo hi).
  - intros prev s g rest g'; cbn [node_cont].
    destruct (xorb (opt_isword prev) (opt_isword (hd_error s))); [apply Hk | discriminate].
  - intros prev s g rest g'; cbn [node_cont]. apply Hk.
  - intros prev s g rest g'; cbn [node_cont]. apply Hk.
Qed.

Lemma run_leaves_suffix ns k : leaves_suffix k -> leaves_suffix (run ic ns k).
Proof.
  intros Hk. induction ns as [|n ns IH]; [exact Hk|].
  exact (node_cont_leaves_suffix n _ IH).
Qed.
End SuffixFacts.

Section SearchFacts.
Context {db : UnicodeDB}.
Variable re : regex.

Lemma match_at_suffix noempty prev s rest g :
  match_at re noempty prev s = Some (rest, g) -> exists w, s = w ++ rest.
Proof. apply run_leaves_suffix, accept_leaves_suffix. Qed.

(** The match that [re.search] returns lies in the subject: the subject is
    some text, then [m.group(0)], then the text after the match. *)
Lemma re_search_in_subject s m :
  re_search re s = Some m ->
  exists before, s = before ++ group0 m ++ m_rest m /\ m_from m = group0 m ++ m_rest m.
Proof.
  unfold re_search. generalize (@None char) as prev.
  induction s as [|c s IH]; intros prev; cbn [search_from].
  - destruct (match_at re false prev []) as [[rest g]|] eqn:E; [|discriminate].
    intros H; injection H as <-. destruct (match_at_suffix _ _ _ _ _ E) as [w Hw].
    exists []. unfold group0, between. cbn [m_from m_rest].
    destruct w; destruct rest; try discriminate. split; reflexivity.
  - destruct (match_at re false prev (c :: s)) as [[rest g]|] eqn:E.
    + intros H; injection H as <-. destruct (match_at_suffix _ _ _ _ _ E) as [w Hw].
      exists []. unfold group0, between. cbn [m_from m_rest app].
      rewrite Hw, length_app.
      replace (length w + length rest - length rest) with (length w) by lia.
      rewrite firstn_app, firstn_all, Nat.sub_diag. cbn [firstn].
      rewrite app_nil_r. split; reflexivity.
    + intros H. destruct (IH _ H) as [before [Hs Hm]].
      exists (c :: before). split; [cbn [app]; f_equal; exact Hs | exact Hm].
Qed.
End SearchFacts.

(** The matcher on the examples of the Python documentation of [re.sub],
    and on the constructs the patterns of [renamer.py] use. *)
Example sub_empty_matches :
  re_sub (db := ascii_only_db) {| re_nodes := [star (lit1 "x")]; re_ignorecase := false |}
    (u "-") (u "abxd") = u "-a-b--d-".
Proof. vm_compute. reflexivity. Qed.

Example search_is_leftmost_and_greedy :
  option_map group0
    (re_search (db := ascii_only_db)
       {| re_nodes := [plus (Cat CatDigit)]; re_ignorecase := false |} (u "ab 12 345"))
  = Some (u "12").
Proof. vm_compute. reflexivity. Qed.

Example lazy_group_stops_early :
  option_map (fun m => group m "ref")
    (re_search (db := ascii_only_db) RE_REF (u "(Referensi: INV-77/A)"))
  = Some (u "I").
Proof. vm_compute. reflexivity. Qed.

Example strict_pattern_needs_word_boundary :
  re_search (db := ascii_only_db) RE_INV_STRICT (u "XINV/2025/09/0654") = None
  /\ re_search (db := ascii_only_db) RE_INV_STRICT (u "INV/2025/09/06543") = None
  /\ option_map group0 (re_search (db := ascii_only_db) RE_INV_STRICT (u "no. inv/2025/09/0654.b"))
     = Some (u "inv/2025/09/0654").
Proof. repeat split; vm_compute; reflexivity. Qed.

Example seri_pattern_ignores_case :
  option_map (fun m => group m "seri")
    (re_search (db := ascii_only_db) RE_SERI
       (u "KODE DAN NOMOR SERI FAKTUR PAJAK : 010.000-25.12345678 Nama"))
  = Some (u "010.000-25.12345678 ").
Proof. vm_compute. reflexivity. Qed.

(** ** The patterns of [_sanitize] and [_normalize_for_search] *)

Lemma no_adjacent_app_r bad a b : no_adjacent bad (a ++ b) = true -> no_adjacent bad b = true.
Proof.
  induction a as [|x a IH]; simpl; [trivial|].
  intros H; apply andb_true_iff in H; apply IH, H.
Qed.

Lemma no_adjacent_weaken (bad bad' : char -> char -> bool) s :
  (forall x y, bad' x y = true -> bad x y = true) ->
  no_adjacent bad s = true -> no_adjacent bad' s = true.
Proof.
  intros Hw; induction s as [|x s IH]; simpl; [trivial|].
  intros H; apply andb_true_iff in H; destruct H as [H1 H2].
  rewrite (IH H2), andb_true_r.
  destruct s as [|y s]; simpl in *; [reflexivity|].
  destruct (bad' x y) eqn:E; [|reflexivity].
  rewrite (Hw _ _ E) in H1; discriminate.
Qed.

Section PatternFacts.
Context {db : UnicodeDB}.

Lemma sub_from_one ic a repl prev s :
  sub_from {| re_nodes := [One a]; re_ignorecase := ic |} repl prev s 0 =
  flat_map (fun c => if atom_match ic a c then repl else [c]) s.
Proof.
  revert prev; induction s as [|c s IH]; intros prev; [reflexivity|].
  cbn [sub_from flat_map]. unfold match_at.
  cbn [run fold_right node_cont re_nodes re_ignorecase].
  destruct (atom_match ic a c).
  - unfold accept. cbn [andb].
    replace (length s <? length (c :: s)) with true
      by (symmetry; apply Nat.ltb_lt; simpl; lia).
    rewrite Nat.sub_diag, IH. reflexivity.
  - rewrite IH. reflexivity.
Qed.

Lemma set_of_lits_match c l :
  atom_match false (SetOf false (map ILit l)) c = existsb (N.eqb c) l.
Proof.
  cbn [atom_match xorb]. induction l as [|p l IH]; simpl; [reflexivity|].
  rewrite IH. reflexivity.
Qed.

(** [re.sub] of the class of illegal characters by a space. *)
Lemma sub_illegal s : re_sub RE_ILLEGAL (u " ") s = map blank_illegal s.
Proof.
  unfold re_sub, RE_ILLEGAL. rewrite sub_from_one.
  induction s as [|c s IH]; [reflexivity|].
  cbn [flat_map map]. rewrite IH, set_of_lits_match.
  unfold blank_illegal, is_illegal. destruct (existsb (N.eqb c) illegal_chars); reflexivity.
Qed.

Lemma match_spaces prev s :
  match_at RE_SPACES false prev s =
  if starts_with isspace s then Some (lstrip s, []) else None.
Proof.
  unfold match_at, RE_SPACES, plus.
  cbn [run fold_right node_cont re_nodes re_ignorecase].
  rewrite rep_greedy_accept.
  change (atom_match false (Cat CatSpace)) with isspace.
  destruct s as [|c s]; [reflexivity|].
  cbn [starts_with drop_while length]. unfold lstrip. cbn [drop_while].
  destruct (isspace c).
  - pose proof (drop_while_length isspace s).
    destruct (Nat.leb_spec 1 (S (length s) - length (drop_while isspace s)));
      [reflexivity | lia].
  - cbn [length]. rewrite Nat.sub_diag. reflexivity.
Qed.

Lemma sub_spaces_collapse s :
  (forall prev, sub_from RE_SPACES (u " ") prev s 0 = collapse false s)
  /\ (forall prev, sub_from RE_SPACES (u " ") prev s (length s - length (lstrip s))
                   = collapse true s).
Proof.
  induction s as [|c s [IH0 IH1]].
  - split; intros prev; reflexivity.
  - unfold lstrip in IH1.
    assert (H0 : forall prev, sub_from RE_SPACES (u " ") prev (c :: s) 0
                              = collapse false (c :: s)).
    { intros prev. cbn [sub_from collapse]. rewrite match_spaces.
      cbn [starts_with]. unfold lstrip. cbn [drop_while].
      destruct (isspace c).
      - pose proof (drop_while_length isspace s).
        replace (length (drop_while isspace s) <? length (c :: s)) with true
          by (symmetry; apply Nat.ltb_lt; simpl; lia).
        rewrite (IH1 (Some c)). reflexivity.
      - rewrite IH0. reflexivity. }
    split; [exact H0|].
    intros prev. unfold lstrip. cbn [drop_while collapse].
    destruct (isspace c) eqn:E.
    + pose proof (drop_while_length isspace s).
      replace (length (c :: s) - length (drop_while isspace s))
        with (S (length s - length (drop_while isspace s))) by (cbn [length]; lia).
      cbn [sub_from]. apply IH1.
    + rewrite Nat.sub_diag. rewrite H0. cbn [collapse]. rewrite E. reflexivity.
Qed.

(** [re.sub] of the runs of white space by one space. *)
Lemma sub_spaces s : re_sub RE_SPACES (u " ") s = collapse false s.
Proof. apply sub_spaces_collapse. Qed.

Lemma isspace_not_slash c : isspace c = true -> is_slash c = false.
Proof.
  unfold is_slash. destruct (N.eqb_spec c chr_slash) as [->|]; [discriminate | reflexivity].
Qed.

Lemma match_around_slash prev s :
  match_at RE_AROUND_SLASH false prev s =
  match lstrip s with
  | c :: t => if is_slash c then Some (lstrip t, []) else None
  | [] => None
  end.
Proof.
  unfold match_at, RE_AROUND_SLASH, star.
  cbn [run fold_right node_cont re_nodes re_ignorecase].
  rewrite rep_greedy_commit.
  - change (atom_match false (Cat CatSpace)) with isspace.
    fold (lstrip s). destruct (lstrip s) as [|c t]; [reflexivity|].
    cbn [node_cont].
    change (atom_match false (lit1 "/") c) with (is_slash c).
    destruct (is_slash c); [|reflexivity].
    rewrite rep_greedy_accept. reflexivity.
  - intros p c s' g' Hc.
    change (atom_match false (Cat CatSpace) c) with (isspace c) in Hc.
    cbn [node_cont].
    change (atom_match false (lit1 "/") c) with (is_slash c).
    rewrite (isspace_not_slash _ Hc). reflexivity.
  - intros p p' s' g'. destruct s'; reflexivity.
Qed.
End PatternFacts.

Lemma starts_with_hd f s :
  starts_with f s = match hd_error s with Some c => f c | None => false end.
Proof. destruct s; reflexivity. Qed.

(** What [no_adjacent] says, pair by pair. *)
Lemma no_adjacent_spec bad s :
  no_adjacent bad s = true <->
  (forall l1 x y l2, s = l1 ++ x :: y :: l2 -> bad x y = false).
Proof.
  induction s as [|a s IH]; simpl.
  - split; [|trivial]. intros _ [|z l1] x y l2 H; discriminate.
  - rewrite andb_true_iff, negb_true_iff, IH. split.
    + intros [H1 H2] [|z l1] x y l2 H; simpl in H.
      * injection H as -> ->. exact H1.
      * injection H as _ ->. eapply H2; reflexivity.
    + intros H; split.
      * destruct s as [|y s]; [reflexivity|]. apply (H [] a y s); reflexivity.
      * intros l1 x y l2 ->. apply (H (a :: l1) x y l2); reflexivity.
Qed.

Lemma collapse_starts b s :
  starts_with isspace (collapse b s) = negb b && starts_with isspace s.
Proof.
  revert b; induction s as [|c s IH]; intros b; simpl.
  - rewrite andb_false_r; reflexivity.
  - destruct (isspace c) eqn:E; destruct b; simpl; try rewrite E; try reflexivity.
    rewrite IH; reflexivity.
Qed.

Lemma collapse_no_adjacent b s : no_adjacent space_pair (collapse b s) = true.
Proof.
  revert b; induction s as [|c s IH]; intros b; simpl; [reflexivity|].
  destruct (isspace c) eqn:E.
  - destruct b; [apply IH|].
    cbn [no_adjacent]. rewrite IH, andb_true_r.
    rewrite starts_with_hd.
    pose proof (collapse_starts true s) as H. rewrite starts_with_hd in H.
    destruct (hd_error (collapse true s)); [|reflexivity].
    unfold space_pair. simpl in H. rewrite H, andb_false_r. reflexivity.
  - cbn [no_adjacent]. rewrite IH, andb_true_r.
    destruct (collapse false s); [reflexivity|].
    simpl. unfold space_pair. rewrite E. reflexivity.
Qed.

Section NormalizeFacts.
Context {db : UnicodeDB}.

Lemma sub_around_slash_hit prev s c t :
  lstrip s = c :: t -> is_slash c = true ->
  exists p, sub_from RE_AROUND_SLASH (u "/") prev s 0
            = chr_slash :: sub_from RE_AROUND_SLASH (u "/") p (lstrip t) 0.
Proof.
  intros Hs Hc.
  destruct (drop_while_suffix isspace s) as [w1 [H1 _]].
  destruct (drop_while_suffix isspace t) as [w2 [H2 _]].
  fold (lstrip s) in H1. fold (lstrip t) in H2. rewrite Hs in H1.
  destruct (sub_from_hit RE_AROUND_SLASH (u "/") prev s (lstrip t) []) as [p Hp].
  - rewrite match_around_slash, Hs, Hc. reflexivity.
  - exists (w1 ++ c :: w2). split.
    + rewrite <- app_assoc. simpl. rewrite <- H2. exact H1.
    + destruct w1; discriminate.
  - exists p. exact Hp.
Qed.

Lemma sub_around_slash_miss prev x s :
  starts_with is_slash (lstrip (x :: s)) = false ->
  sub_from RE_AROUND_SLASH (u "/") prev (x :: s) 0
  = x :: sub_from RE_AROUND_SLASH (u "/") (Some x) s 0.
Proof.
  intros H. apply sub_from_miss. rewrite match_around_slash.
  destruct (lstrip (x :: s)) as [|c t]; [reflexivity|].
  simpl in H. rewrite H. reflexivity.
Qed.

Lemma sub_around_slash_head prev s :
  hd_error (sub_from RE_AROUND_SLASH (u "/") prev s 0) =
  if starts_with is_slash (lstrip s) then Some chr_slash else hd_error s.
Proof.
  destruct (starts_with is_slash (lstrip s)) eqn:E.
  - destruct (lstrip s) as [|c t] eqn:Hs; [discriminate|]. simpl in E.
    destruct (sub_around_slash_hit prev s c t Hs E) as [p ->]. reflexivity.
  - destruct s as [|x s]; [reflexivity|].
    rewrite (sub_around_slash_miss prev _ _ E). reflexivity.
Qed.

Lemma sub_around_slash_tidy n : forall s prev,
  length s <= n ->
  no_adjacent space_pair s = true ->
  no_adjacent untidy_pair (sub_from RE_AROUND_SLASH (u "/") prev s 0) = true.
Proof.
  induction n as [|n IH]; intros s prev Hn Hs.
  - destruct s; [reflexivity | simpl in Hn; lia].
  - destruct (starts_with is_slash (lstrip s)) eqn:E.
    + destruct (lstrip s) as [|c t] eqn:Hl; [discriminate|]. simpl in E.
      destruct (sub_around_slash_hit prev s c t Hl E) as [p ->].
      destruct (drop_while_suffix isspace s) as [w1 [H1 _]].
      destruct (drop_while_suffix isspace t) as [w2 [H2 _]].
      fold (lstrip s) in H1. fold (lstrip t) in H2. rewrite Hl in H1.
      cbn [no_adjacent]. apply andb_true_iff; split.
      * rewrite starts_with_hd, sub_around_slash_head.
        unfold lstrip at 1. rewrite drop_while_idem. fold (lstrip t).
        destruct (starts_with is_slash (lstrip t)); [reflexivity|].
        destruct (lstrip t) as [|y r] eqn:Hr; [reflexivity|].
        apply drop_while_head in Hr. simpl. unfold untidy_pair.
        rewrite Hr. reflexivity.
      * apply IH.
        -- assert (length s = length w1 + S (length w2 + length (lstrip t))).
           { rewrite H1 at 1. rewrite length_app. simpl. rewrite H2 at 1.
             rewrite length_app. reflexivity. }
           lia.
        -- apply (no_adjacent_app_r _ (w1 ++ c :: w2)).
           rewrite <- app_assoc. simpl. rewrite <- H2, <- H1. exact Hs.
    + destruct s as [|x s]; [reflexivity|].
      rewrite (sub_around_slash_miss prev _ _ E).
      cbn [no_adjacent] in Hs |- *.
      apply andb_true_iff in Hs. destruct Hs as [Hx Hs].
      apply andb_true_iff; split; [|apply IH; [simpl in Hn; lia | exact Hs]].
      rewrite starts_with_hd, sub_around_slash_head.
      unfold lstrip in E. cbn [drop_while] in E. fold (lstrip s) in E.
      destruct (isspace x) eqn:Ex.
      * rewrite E. destruct s as [|y s]; [reflexivity|].
        simpl in Hx |- *. unfold space_pair in Hx. rewrite Ex in Hx. simpl in Hx.
        apply negb_true_iff in Hx.
        unfold lstrip in E. cbn [drop_while] in E. rewrite Hx in E. simpl in E.
        unfold untidy_pair. rewrite Ex, Hx, E, !andb_false_r. reflexivity.
      * simpl in E.
        assert (Hu : forall y, untidy_pair x y = false).
        { intros y. unfold untidy_pair. rewrite Ex, E. reflexivity. }
        destruct (starts_with is_slash (lstrip s)); [apply negb_true_iff, Hu|].
        destruct (hd_error s); [apply negb_true_iff, Hu | reflexivity].
Qed.

Lemma normalize_collapse s :
  _normalize_for_search s
  = re_sub RE_AROUND_SLASH (u "/") (collapse false s).
Proof. unfold _normalize_for_search. rewrite sub_spaces. reflexivity. Qed.
End NormalizeFacts.

(** ** [strip] *)

Lemma rstrip_length s : length (rstrip s) <= length s.
Proof.
  unfold rstrip. rewrite length_rev.
  pose proof (drop_while_length isspace (rev s)) as H. rewrite length_rev in H. exact H.
Qed.

Lemma lstrip_snoc_nonspace s c : isspace c = false -> lstrip (s ++ [c]) = lstrip s ++ [c].
Proof.
  intros Hc. unfold lstrip. induction s as [|x s IH]; simpl.
  - rewrite Hc. reflexivity.
  - destruct (isspace x); [exact IH | reflexivity].
Qed.

Lemma rstrip_cons_nonspace c s : isspace c = false -> rstrip (c :: s) = c :: rstrip s.
Proof.
  intros Hc. unfold rstrip. simpl rev.
  rewrite (lstrip_snoc_nonspace _ _ Hc), rev_app_distr. reflexivity.
Qed.

Lemma rstrip_prefix s : exists w, s = rstrip s ++ w.
Proof.
  destruct (drop_while_suffix isspace (rev s)) as [w [H _]].
  exists (rev w). unfold rstrip, lstrip.
  rewrite <- rev_app_distr, <- H, rev_involutive. reflexivity.
Qed.

Lemma lstrip_suffix s : exists w, s = w ++ lstrip s.
Proof. destruct (drop_while_suffix isspace s) as [w [H _]]. exists w; exact H. Qed.

Lemma starts_with_drop_while f s : starts_with f (drop_while f s) = false.
Proof.
  destruct (drop_while f s) as [|c r] eqn:E; [reflexivity|].
  simpl. exact (drop_while_head _ _ _ _ E).
Qed.

Lemma strip_starts x : starts_with isspace (strip x) = false.
Proof.
  unfold strip.
  pose proof (starts_with_drop_while isspace x) as H. fold (lstrip x) in H.
  destruct (lstrip x) as [|c r]; [reflexivity|].
  simpl in H. rewrite (rstrip_cons_nonspace _ _ H). simpl. exact H.
Qed.

Lemma strip_ends x : ends_with isspace (strip x) = false.
Proof.
  unfold ends_with, strip, rstrip. rewrite rev_involutive.
  apply starts_with_drop_while.
Qed.

Lemma lstrip_id s : starts_with isspace s = false -> lstrip s = s.
Proof. destruct s as [|c s]; simpl; [reflexivity|]. unfold lstrip; simpl. intros ->; reflexivity. Qed.

Lemma app_same_length_nil (w s t : str) : s = w ++ t -> length t = length s -> w = [].
Proof.
  intros -> H. rewrite length_app in H. destruct w; [reflexivity | simpl in H; lia].
Qed.

(** [strip] leaves a string alone exactly when it has no white space at
    either end. *)
Lemma strip_id_iff z :
  strip z = z <-> starts_with isspace z = false /\ ends_with isspace z = false.
Proof.
  split.
  - intros H. rewrite <- H at 1 2. split; [apply strip_starts | apply strip_ends].
  - intros [H1 H2]. unfold strip. rewrite (lstrip_id _ H1).
    unfold rstrip. unfold ends_with in H2. rewrite (lstrip_id _ H2).
    apply rev_involutive.
Qed.

(** ** [collapse] *)

Lemma collapse_in b s c :
  In c (collapse b s) -> c = chr_space \/ (In c s /\ isspace c = false).
Proof.
  revert b; induction s as [|x s IH]; intros b; simpl; [tauto|].
  destruct (isspace x) eqn:E.
  - destruct b; simpl.
    + intros H; destruct (IH _ H) as [?|[? ?]]; auto.
    + intros [H|H]; [left; congruence|]. destruct (IH _ H) as [?|[? ?]]; auto.
  - simpl. intros [H|H]; [subst; right; auto|].
    destruct (IH _ H) as [?|[? ?]]; auto.
Qed.

Lemma collapse_keeps b s c : In c s -> isspace c = false -> In c (collapse b s).
Proof.
  intros Hin Hc. revert b; induction s as [|x s IH]; intros b; [destruct Hin|].
  simpl. destruct Hin as [->|Hin].
  - rewrite Hc. left; reflexivity.
  - destruct (isspace x); [destruct b|]; simpl; auto.
Qed.

Lemma collapse_true_false s :
  starts_with isspace s = false -> collapse true s = collapse false s.
Proof. destruct s as [|c s]; simpl; [reflexivity|]. intros ->; reflexivity. Qed.

Lemma collapse_snoc b s c :
  collapse b (s ++ [c]) =
  collapse b s ++ (if isspace c then if ends_from b s then [] else [chr_space] else [c]).
Proof.
  revert b; induction s as [|x s IH]; intros b; simpl.
  - destruct (isspace c); [destruct b|]; reflexivity.
  - destruct (isspace x) eqn:E; [destruct b|]; simpl; rewrite IH; reflexivity.
Qed.

Lemma ends_from_snoc d s c : ends_from d (s ++ [c]) = isspace c.
Proof. revert d; induction s as [|x s IH]; intros d; simpl; [reflexivity | apply IH]. Qed.

Lemma ends_with_snoc f s c : ends_with f (s ++ [c]) = f c.
Proof. unfold ends_with. rewrite rev_unit. reflexivity. Qed.

Lemma ends_from_false s : ends_from false s = ends_with isspace s.
Proof.
  destruct s as [|x s] using rev_ind; [reflexivity|].
  rewrite ends_from_snoc, ends_with_snoc. reflexivity.
Qed.

Lemma collapse_ends s : ends_with isspace (collapse false s) = ends_with isspace s.
Proof.
  induction s as [|c s IH] using rev_ind; [reflexivity|].
  rewrite collapse_snoc, ends_with_snoc, ends_from_false.
  destruct (isspace c) eqn:E.
  - destruct (ends_with isspace s) eqn:Es.
    + rewrite app_nil_r. exact IH.
    + rewrite ends_with_snoc. reflexivity.
  - rewrite ends_with_snoc. exact E.
Qed.

Lemma collapse_tidy_id s : tidy s = true -> collapse false s = s.
Proof.
  unfold tidy. induction s as [|c s IH]; [reflexivity|].
  cbn [forallb no_adjacent collapse]. rewrite !andb_true_iff.
  intros [[Hc Hall] [Hadj Hrest]].
  assert (IH' : collapse false s = s) by (apply IH; rewrite Hall, Hrest; reflexivity).
  destruct (isspace c) eqn:E; [|rewrite IH'; reflexivity].
  unfold tidy_char in Hc. rewrite E in Hc. simpl in Hc.
  apply andb_true_iff in Hc. destruct Hc as [_ Hc]. apply N.eqb_eq in Hc. subst c.
  rewrite collapse_true_false, IH'; [reflexivity|].
  apply negb_true_iff in Hadj. destruct s as [|y s]; [reflexivity|].
  simpl in Hadj |- *. unfold space_pair in Hadj. rewrite E in Hadj. exact Hadj.
Qed.

(** ** [_sanitize] *)

Lemma blank_illegal_legal c : is_illegal (blank_illegal c) = false.
Proof.
  unfold blank_illegal. destruct (is_illegal c) eqn:E; [reflexivity | exact E].
Qed.

Lemma blank_illegal_id c : is_illegal c = false -> blank_illegal c = c.
Proof. unfold blank_illegal. intros ->; reflexivity. Qed.

Lemma blank_illegal_space c :
  isspace c = false -> isspace (blank_illegal c) = is_illegal c.
Proof.
  unfold blank_illegal. intros H. destruct (is_illegal c); [reflexivity | exact H].
Qed.

Lemma map_blank_tidy s : tidy s = true -> map blank_illegal s = s.
Proof.
  unfold tidy. rewrite andb_true_iff. intros [H _].
  induction s as [|c s IH]; [reflexivity|].
  simpl in H |- *. apply andb_true_iff in H. destruct H as [Hc H].
  rewrite (IH H). unfold tidy_char in Hc. apply andb_true_iff in Hc.
  destruct Hc as [Hc _]. apply negb_true_iff in Hc.
  rewrite (blank_illegal_id _ Hc). reflexivity.
Qed.

Lemma no_adjacent_app_l bad a b : no_adjacent bad (a ++ b) = true -> no_adjacent bad a = true.
Proof.
  induction a as [|x a IH]; simpl; [trivial|].
  rewrite !andb_true_iff. intros [H1 H2]. split; [|apply IH, H2].
  destruct a; [reflexivity | exact H1].
Qed.

Lemma tidy_app a b : tidy (a ++ b) = true -> tidy a = true /\ tidy b = true.
Proof.
  unfold tidy. rewrite forallb_app, !andb_true_iff. intros [[Ha Hb] H].
  rewrite Ha, Hb, (no_adjacent_app_l _ _ _ H), (no_adjacent_app_r _ _ _ H). auto.
Qed.

Lemma strip_tidy s : tidy s = true -> tidy (strip s) = true.
Proof.
  intros H. unfold strip.
  destruct (lstrip_suffix s) as [w Hw]. rewrite Hw in H.
  apply tidy_app in H. destruct H as [_ H].
  destruct (rstrip_prefix (lstrip s)) as [w' Hw']. rewrite Hw' in H.
  apply tidy_app in H. apply H.
Qed.

Section SanitizeFacts.
Context {db : UnicodeDB}.

Lemma sanitize_eq s : _sanitize s = collapse false (map blank_illegal (strip s)).
Proof. unfold _sanitize. rewrite sub_illegal, sub_spaces. reflexivity. Qed.

Lemma sanitize_tidy s : tidy (_sanitize s) = true.
Proof.
  rewrite sanitize_eq. unfold tidy. rewrite collapse_no_adjacent, andb_true_r.
  apply forallb_forall. intros c Hc.
  apply collapse_in in Hc. destruct Hc as [->|[Hin Hc]]; [reflexivity|].
  apply in_map_iff in Hin. destruct Hin as [x [<- _]].
  unfold tidy_char. rewrite blank_illegal_legal, Hc. reflexivity.
Qed.

(** On a string that is tidy already, [_sanitize] only trims. *)
Lemma sanitize_of_tidy s : tidy s = true -> _sanitize s = strip s.
Proof.
  intros H. apply strip_tidy in H.
  rewrite sanitize_eq, (map_blank_tidy _ H). apply collapse_tidy_id, H.
Qed.

(** Sanitizing twice is sanitizing once and trimming the result. *)
Lemma sanitize_twice s : _sanitize (_sanitize s) = strip (_sanitize s).
Proof. apply sanitize_of_tidy, sanitize_tidy. Qed.

Lemma sanitize_starts s :
  starts_with isspace (_sanitize s) = starts_with is_illegal (strip s).
Proof.
  rewrite sanitize_eq, collapse_starts. cbn [negb andb].
  pose proof (strip_starts s) as H.
  destruct (strip s) as [|c r]; [reflexivity|].
  simpl in H |- *. apply blank_illegal_space, H.
Qed.

Lemma sanitize_ends s :
  ends_with isspace (_sanitize s) = ends_with is_illegal (strip s).
Proof.
  rewrite sanitize_eq, collapse_ends.
  pose proof (strip_ends s) as H. unfold ends_with in H |- *.
  rewrite <- map_rev.
  destruct (rev (strip s)) as [|c r]; [reflexivity|].
  simpl in H |- *. apply blank_illegal_space, H.
Qed.
End SanitizeFacts.

(** ** The Text Normalizer *)

Lemma normalize_no_untidy_pair {db : UnicodeDB} (s : str) :
  no_adjacent untidy_pair (_normalize_for_search s) = true.
Proof.
  rewrite normalize_collapse. unfold re_sub.
  apply (sub_around_slash_tidy (length (collapse false s))); [lia|].
  apply collapse_no_adjacent.
Qed.

(** The same, neighbour by neighbour. *)
Lemma normalize_neighbours {db : UnicodeDB} (s l1 l2 : str) (x y : char) :
  _normalize_for_search s = l1 ++ x :: y :: l2 ->
  (isspace x = true -> isspace y = false /\ y <> chr_slash)
  /\ (x = chr_slash -> isspace y = false).
Proof.
  intros H. pose proof (normalize_no_untidy_pair s) as Hn.
  rewrite no_adjacent_spec in Hn. specialize (Hn _ _ _ _ H).
  unfold untidy_pair, is_slash in Hn.
  apply orb_false_iff in Hn. destruct Hn as [Hn H3].
  apply orb_false_iff in Hn. destruct Hn as [H1 H2].
  split.
  - intros Hx. rewrite Hx in H1, H2. simpl in H1, H2. split; [exact H1|].
    intros ->. discriminate H2.
  - intros ->. exact H3.
Qed.

(** C8: for every input string, the output of the Text Normalizer contains no
    two consecutive white-space characters and no white-space character next
    to a slash; the empty input yields the empty output. *)
Theorem C8_normalize_tidy {db : UnicodeDB} :
  (forall s, no_adjacent untidy_pair (_normalize_for_search s) = true)
  /\ _normalize_for_search [] = [].
Proof. split; [exact normalize_no_untidy_pair | reflexivity]. Qed.

Example normalize_invoice {db : UnicodeDB} :
  _normalize_for_search (u "INV / 2025 /  09/ 0654  x  / /y") = u "INV/2025/09/0654 x//y".
Proof. vm_compute. reflexivity. Qed.

(** ** The Filename Sanitizer *)

Example sanitize_leading_slash {db : UnicodeDB} :
  _sanitize (u "/a") = u " a" /\ _sanitize (u " a") = u "a".
Proof. split; vm_compute; reflexivity. Qed.

(** C3, as stated, fails: sanitizing ["/a"] gives [" a"], and sanitizing that
    gives ["a"], whatever the Unicode tables are. *)
Lemma C3_sanitize_not_idempotent :
  ~ (exists db : UnicodeDB,
       @_sanitize db (@_sanitize db (u "/a")) = @_sanitize db (u "/a")).
Proof. intros [db H]. vm_compute in H. discriminate H. Qed.

(** C3 (amended): sanitizing twice gives what sanitizing once gives with the
    space at its ends removed; so it gives the same as sanitizing once exactly
    for the strings whose trimmed form neither begins nor ends with an
    illegal character. *)
Theorem C3_sanitize_idempotent_iff {db : UnicodeDB} (x : str) :
  _sanitize (_sanitize x) = strip (_sanitize x)
  /\ (_sanitize (_sanitize x) = _sanitize x <-> illegal_edge x = false).
Proof.
  split; [apply sanitize_twice|].
  rewrite sanitize_twice, strip_id_iff, sanitize_starts, sanitize_ends.
  unfold illegal_edge. rewrite orb_false_iff. reflexivity.
Qed.

(** After one more application nothing changes any more. *)
Lemma sanitize_twice_fixed {db : UnicodeDB} (x : str) :
  _sanitize (_sanitize (_sanitize x)) = _sanitize (_sanitize x).
Proof.
  rewrite (sanitize_twice (_sanitize x)). rewrite sanitize_twice.
  apply strip_id_iff. split; [apply strip_starts | apply strip_ends].
Qed.

Lemma lstrip_keeps c s : In c s -> isspace c = false -> In c (lstrip s).
Proof.
  intros Hin Hc. unfold lstrip. induction s as [|x s IH]; [destruct Hin|].
  simpl. destruct (isspace x) eqn:E; [|exact Hin].
  destruct Hin as [->|Hin]; [congruence | apply IH, Hin].
Qed.

Lemma strip_keeps c s : In c s -> isspace c = false -> In c (strip s).
Proof.
  intros Hin Hc. unfold strip, rstrip.
  apply in_rev. rewrite rev_involutive. apply lstrip_keeps; [|exact Hc].
  apply -> in_rev. apply lstrip_keeps; assumption.
Qed.

Section SanitizeMembers.
Context {db : UnicodeDB}.

(** A legal character that is no white space survives [_sanitize]. *)
Lemma sanitize_keeps c s :
  In c s -> isspace c = false -> is_illegal c = false -> In c (_sanitize s).
Proof.
  intros Hin Hc Hl. rewrite sanitize_eq. apply collapse_keeps; [|exact Hc].
  rewrite <- (blank_illegal_id c Hl). apply in_map, strip_keeps; assumption.
Qed.

(** [_sanitize] leaves no illegal character. *)
Lemma sanitize_legal c s : In c (_sanitize s) -> is_illegal c = false.
Proof.
  intros Hin. pose proof (sanitize_tidy s) as H. unfold tidy in H.
  apply andb_true_iff in H. destruct H as [H _].
  rewrite forallb_forall in H. specialize (H c Hin).
  unfold tidy_char in H. apply andb_true_iff in H. destruct H as [H _].
  apply negb_true_iff, H.
Qed.

Lemma sanitize_nil : _sanitize [] = [].
Proof. reflexivity. Qed.
End SanitizeMembers.

(** ** The Name Builder *)

Lemma endswith_app a b : endswith (a ++ b) b = true.
Proof.
  unfold endswith. rewrite length_app.
  replace (length a + length b - length b) with (length a) by lia.
  rewrite skipn_app, skipn_all, Nat.sub_diag. simpl. rewrite str_eqb_refl.
  rewrite andb_true_r. apply Nat.leb_le. lia.
Qed.

Section NameBuilder.
Context {db : UnicodeDB}.

(** The base of a name always holds the dash that joins its two parts. *)
Lemma base_has_dash ref_disp seri :
  In chr_dash (_sanitize (ref_disp ++ u " - " ++ seri)).
Proof.
  apply sanitize_keeps; [|reflexivity|reflexivity].
  apply in_or_app. right. apply in_or_app. left. simpl. auto.
Qed.

(** What [build_new_name] returns: a name for two non-empty fields, nothing
    otherwise. *)
Lemma build_new_name_eq ref seri pretty :
  build_new_name ref seri pretty =
  match ref, seri with
  | Some (r :: ref'), Some (s :: seri') =>
      Some (_sanitize (_invoice_ref_to_filename (_sanitize (r :: ref')) pretty
                       ++ u " - " ++ s :: seri') ++ u ".pdf")
  | _, _ => None
  end.
Proof.
  unfold build_new_name.
  destruct ref as [[|r ref']|]; [reflexivity| |reflexivity].
  destruct seri as [[|s seri']|]; [reflexivity| |reflexivity].
  cbn [truthy negb orb].
  pose proof (base_has_dash (_invoice_ref_to_filename (_sanitize (r :: ref')) pretty)
                (s :: seri')) as H.
  destruct (_sanitize _) as [|b base]; [destruct H | reflexivity].
Qed.
End NameBuilder.

(** The part of the Name Builder's contract that the code keeps: nothing is
    returned when the reference or the serial is absent, and a name that ends
    in [.pdf] is returned when both are present and sanitize to something
    non-empty. *)
Lemma build_new_name_contract {db : UnicodeDB} :
  (forall seri pretty, build_new_name None seri pretty = None)
  /\ (forall ref pretty, build_new_name ref None pretty = None)
  /\ (forall ref seri pretty,
        _sanitize ref <> [] -> _sanitize seri <> [] ->
        exists name,
          build_new_name (Some ref) (Some seri) pretty = Some name
          /\ endswith name (u ".pdf") = true).
Proof.
  split; [reflexivity|]. split.
  - intros ref pretty. rewrite build_new_name_eq. destruct ref as [[|? ?]|]; reflexivity.
  - intros ref seri pretty Href Hseri. rewrite build_new_name_eq.
    destruct ref as [|r ref]; [elim Href; reflexivity|].
    destruct seri as [|s seri]; [elim Hseri; reflexivity|].
    eexists. split; [reflexivity | apply endswith_app].
Qed.

Example build_new_name_contract_example :
  exists name,
    build_new_name (db := ascii_only_db) (Some (u "INV 2025 09 0654")) (Some (u "123456789")) true
    = Some name
    /\ endswith name (u ".pdf") = true.
Proof.
  apply (proj2 (proj2 (build_new_name_contract (db := ascii_only_db)))).
  - vm_compute. discriminate.
  - vm_compute. discriminate.
Qed.

(** Both fields are tested before they are sanitized: a reference that
    sanitizes to nothing still gives a name. *)
Example name_from_illegal_reference {db : UnicodeDB} :
  build_new_name (Some (u "/")) (Some (u "123")) true = Some (u "- 123.pdf").
Proof. vm_compute. reflexivity. Qed.


(** ** The Field Extractor *)

Section DigitFacts.
Context {db : UnicodeDB}.

Lemma isdecimal_not_space c : isdecimal c = true -> isspace c = false.
Proof.
  unfold isdecimal, is_ascii, ascii_isdigit.
  destruct (N.ltb_spec c 128) as [Hlt|Hge]; [|apply decimal_ext_not_space].
  rewrite andb_true_iff, !N.leb_le. intros [H1 H2].
  unfold isspace.
  repeat match goal with
  | |- context [N.leb ?a ?b] => destruct (N.leb_spec a b); try lia
  | |- context [N.eqb ?a ?b] => destruct (N.eqb_spec a b); try lia
  end; try reflexivity.
Qed.

Lemma isdecimal_legal c : isdecimal c = true -> is_illegal c = false.
Proof.
  intros H. destruct (is_illegal c) eqn:E; [|reflexivity].
  unfold is_illegal in E. apply existsb_exists in E.
  destruct E as [x [Hin Hx]]. apply N.eqb_eq in Hx. subst x.
  vm_compute in Hin.
  repeat (destruct Hin as [Hin|Hin]; [subst c; discriminate H|]).
  destruct Hin.
Qed.

Lemma decimals_no_space s :
  forallb isdecimal s = true -> forallb (fun c => negb (isspace c)) s = true.
Proof.
  rewrite !forallb_forall. intros H c Hc.
  rewrite (isdecimal_not_space c (H c Hc)). reflexivity.
Qed.
End DigitFacts.

Lemma no_space_no_adjacent s :
  forallb (fun c => negb (isspace c)) s = true -> no_adjacent space_pair s = true.
Proof.
  induction s as [|c s IH]; simpl; [reflexivity|].
  rewrite andb_true_iff, negb_true_iff. intros [Hc Hs].
  rewrite (IH Hs), andb_true_r.
  destruct s; simpl; [reflexivity|]. unfold space_pair. rewrite Hc. reflexivity.
Qed.

Lemma no_space_strip s :
  forallb (fun c => negb (isspace c)) s = true -> strip s = s.
Proof.
  intros H. apply strip_id_iff. split.
  - destruct s as [|c s]; [reflexivity|]. simpl in H |- *.
    apply andb_true_iff in H. apply negb_true_iff, H.
  - unfold ends_with. rewrite forallb_forall in H.
    destruct (rev s) as [|c r] eqn:E; [reflexivity|]. simpl.
    apply negb_true_iff, H, in_rev. rewrite E. left; reflexivity.
Qed.

Lemma flat_map_filter (f : char -> bool) s :
  flat_map (fun c => if f c then [] else [c]) s = filter (fun c => negb (f c)) s.
Proof.
  induction s as [|c s IH]; [reflexivity|].
  simpl. rewrite IH. destruct (f c); reflexivity.
Qed.

Lemma replace_nil c s : replace c [] s = filter (fun x => negb (x =? c)%N) s.
Proof. apply flat_map_filter. Qed.

Lemma filter_filter (f g : char -> bool) s :
  filter f (filter g s) = filter (fun x => g x && f x) s.
Proof.
  induction s as [|c s IH]; [reflexivity|].
  simpl. destruct (g c); simpl; [destruct (f c)|]; rewrite IH; reflexivity.
Qed.

Section ExtractorFacts.
Context {db : UnicodeDB}.

(** [_sanitize] leaves a string of decimal digits as it is. *)
Lemma sanitize_decimals s : forallb isdecimal s = true -> _sanitize s = s.
Proof.
  intros H. pose proof (decimals_no_space s H) as Hs.
  rewrite sanitize_of_tidy; [apply no_space_strip, Hs|].
  unfold tidy. rewrite (no_space_no_adjacent s Hs), andb_true_r.
  rewrite forallb_forall in H, Hs |- *. intros c Hc. unfold tidy_char.
  rewrite (isdecimal_legal c (H c Hc)), (Hs c Hc). reflexivity.
Qed.

(** The three cleaning steps of the serial number keep the decimal digits
    and nothing else. *)
Lemma seri_cleaning g :
  replace chr_dash [] (replace chr_dot [] (re_sub RE_NOT_SERI_CHAR [] g))
  = filter isdecimal g.
Proof.
  unfold re_sub, RE_NOT_SERI_CHAR. rewrite sub_from_one.
  rewrite !replace_nil, flat_map_filter, !filter_filter.
  apply filter_ext. intros c.
  cbn [atom_match existsb item_match cat_match xorb]. unfold lit_match.
  rewrite orb_false_r.
  destruct (isdecimal c) eqn:Ed; cbn [orb negb andb].
  - destruct (N.eqb_spec c chr_dot) as [->|_]; [discriminate Ed|].
    destruct (N.eqb_spec c chr_dash) as [->|_]; [discriminate Ed|].
    reflexivity.
  - destruct (c =? chr_dot)%N, (c =? chr_dash)%N; reflexivity.
Qed.

Lemma find_seri_eq norm :
  find_seri norm =
  match re_search RE_SERI norm with
  | Some m => Some (filter isdecimal (group m "seri"))
  | None => None
  end.
Proof.
  unfold find_seri. destruct (re_search RE_SERI norm) as [m|]; [|reflexivity].
  rewrite seri_cleaning, sanitize_decimals; [reflexivity|].
  apply forallb_forall. intros c Hc. apply filter_In in Hc. apply Hc.
Qed.
End ExtractorFacts.

(** C7: when the serial label is found, the extracted serial number is what
    is left of the run after it once everything but decimal digits is
    stripped, so it consists of digits only (it is absent when no digit is
    left); when the label is not found, the serial is absent. *)
Theorem C7_serial_digits_only {db : UnicodeDB} (raw : str) :
  snd (parse_text raw) =
  match re_search RE_SERI (_normalize_for_search raw) with
  | Some m => or_None (Some (filter isdecimal (group m "seri")))
  | None => None
  end
  /\ match snd (parse_text raw) with
     | Some seri => forallb isdecimal seri = true /\ seri <> []
     | None => True
     end.
Proof.
  assert (H : snd (parse_text raw) =
              match re_search RE_SERI (_normalize_for_search raw) with
              | Some m => or_None (Some (filter isdecimal (group m "seri")))
              | None => None
              end).
  { unfold parse_text. cbn [snd]. rewrite find_seri_eq.
    destruct (re_search RE_SERI (_normalize_for_search raw)); reflexivity. }
  split; [exact H|]. rewrite H.
  destruct (re_search RE_SERI (_normalize_for_search raw)) as [m|]; [|exact I].
  destruct (filter isdecimal (group m "seri")) as [|c r] eqn:E; [exact I|].
  cbn [or_None truthy]. split; [|discriminate].
  apply forallb_forall. intros x Hx. rewrite <- E in Hx.
  apply filter_In in Hx. apply Hx.
Qed.

(** C2: whenever the strict pattern matches somewhere in the normalized
    text, the invoice reference that the extractor selects is the upper-cased
    match itself, whether or not a [Referensi] phrase is present and wherever
    the match stands; the value returned is that reference after the common
    file-name step. *)
Theorem C2_strict_pattern_first {db : UnicodeDB} (raw : str) (m : rmatch) :
  re_search RE_INV_STRICT (_normalize_for_search raw) = Some m ->
  find_ref (_normalize_for_search raw) = Some (upper (group0 m))
  /\ fst (parse_text raw)
     = or_None (Some (_invoice_ref_to_filename (_sanitize (upper (group0 m))) true)).
Proof.
  intros H. unfold parse_text, find_ref. rewrite H. split; [reflexivity|].
  cbn [fst]. destruct (upper (group0 m)); reflexivity.
Qed.

(** The strict pattern wins over a [Referensi] phrase that stands before it. *)
Lemma C2_strict_pattern_first_witness :
  find_ref (db := ascii_only_db)
    (_normalize_for_search (u "(Referensi: ABC) lalu inv / 2025/09/ 0654."))
  = Some (u "INV/2025/09/0654")
  /\ fst (parse_text (db := ascii_only_db) (u "(Referensi: ABC) lalu inv / 2025/09/ 0654."))
     = Some (u "INV 2025 09 0654").
Proof.
  exact (C2_strict_pattern_first (db := ascii_only_db)
           (u "(Referensi: ABC) lalu inv / 2025/09/ 0654.")
           {| m_from := u "inv/2025/09/0654."; m_rest := u "."; m_marks := [] |}
           eq_refl).
Defined.

(** The fallback tier: the lazy group of [RE_REF] is followed only by parts
    that may match nothing, so it captures one character. *)
Example referensi_fallback {db : UnicodeDB} :
  find_ref (_normalize_for_search (u "(Referensi: ABC-123)")) = Some (u "A").
Proof. vm_compute. reflexivity. Qed.

Lemma replace_absent c new s : ~ In c s -> replace c new s = s.
Proof.
  unfold replace. induction s as [|x s IH]; [reflexivity|].
  intros H. simpl. destruct (N.eqb_spec x c) as [->|_].
  - elim H. left; reflexivity.
  - simpl. rewrite IH; [reflexivity|]. intros Hin; apply H; right; exact Hin.
Qed.

(** [_sanitize] has turned every slash into a space before
    [_invoice_ref_to_filename] looks for one, so the substitution changes
    nothing. *)
Lemma slash_substitution_after_sanitize {db : UnicodeDB} (ref : str) (pretty : bool) :
  _invoice_ref_to_filename (_sanitize ref) pretty = _sanitize ref.
Proof.
  assert (H : ~ In chr_slash (_sanitize ref)).
  { intros Hin. apply sanitize_legal in Hin. discriminate Hin. }
  unfold _invoice_ref_to_filename. destruct pretty; apply replace_absent, H.
Qed.

(** C1, on the code: for the text of the specification's first end-to-end
    case the pipeline yields the reference [INV 2025 09 0654] (spaces, not
    full-width slashes), the serial [123456789] and the name
    [INV 2025 09 0654 - 123456789.pdf]. *)
Theorem C1_example_pipeline {db : UnicodeDB} :
  parse_text example_text = (Some (u "INV 2025 09 0654"), Some (u "123456789"))
  /\ build_new_name (fst (parse_text example_text)) (snd (parse_text example_text)) true
     = Some (u "INV 2025 09 0654 - 123456789.pdf")
  /\ fst (parse_text example_text) <> Some (u "INV／2025／09／0654").
Proof.
  assert (H : parse_text example_text
              = (Some (u "INV 2025 09 0654"), Some (u "123456789")))
    by (vm_compute; reflexivity).
  rewrite H. split; [reflexivity|]. split; [vm_compute; reflexivity|].
  vm_compute. discriminate.
Qed.

(** ** [os.path.splitext] on the names of [build_new_name] *)

Lemma rfind_from_absent c p i last : ~ In c p -> rfind_from c p i last = last.
Proof.
  revert i last; induction p as [|x p IH]; intros i last H; [reflexivity|].
  simpl. destruct (N.eqb_spec x c) as [->|_].
  - elim H. left; reflexivity.
  - apply IH. intros Hin; apply H; right; exact Hin.
Qed.

Lemma rfind_from_last c a b i last :
  ~ In c b -> rfind_from c (a ++ c :: b) i last = (i + Z.of_nat (length a))%Z.
Proof.
  intros H. revert i last; induction a as [|x a IH]; intros i last.
  - simpl. rewrite N.eqb_refl, (rfind_from_absent c b _ _ H). lia.
  - cbn [app rfind_from length]. rewrite IH. lia.
Qed.

Lemma skip_leading_dots_split p ext d n : forall i,
  (exists j c, i <= j < i + n /\ nth_error p j = Some c /\ c <> ext) ->
  skip_leading_dots p ext (Z.of_nat i) d n
  = (firstn (Z.to_nat d) p, skipn (Z.to_nat d) p).
Proof.
  induction n as [|n IH]; intros i [j [c [Hj [Hc Hne]]]]; [lia|].
  cbn [skip_leading_dots]. rewrite Nat2Z.id.
  destruct (nth_error p i) as [x|] eqn:E; [|reflexivity].
  destruct (N.eqb_spec x ext) as [->|_]; [|reflexivity].
  cbn [negb]. replace (Z.of_nat i + 1)%Z with (Z.of_nat (S i)) by lia.
  apply IH. exists j, c. split; [|split; assumption].
  assert (j <> i) by (intros ->; congruence). lia.
Qed.

Lemma splitext_pdf base :
  ~ In chr_slash base -> In chr_dash base ->
  splitext (base ++ u ".pdf") = (base, u ".pdf").
Proof.
  intros Hslash Hdash. unfold splitext, _splitext.
  assert (Hsep : rfind chr_slash (base ++ u ".pdf") = (-1)%Z).
  { apply rfind_from_absent. intros Hin. apply in_app_or in Hin.
    destruct Hin as [Hin|Hin]; [exact (Hslash Hin)|].
    vm_compute in Hin. intuition discriminate. }
  assert (Hdot : rfind chr_dot (base ++ u ".pdf") = Z.of_nat (length base)).
  { change (u ".pdf") with (chr_dot :: u "pdf"). unfold rfind.
    rewrite rfind_from_last; [lia|].
    intros Hin. vm_compute in Hin. intuition discriminate. }
  rewrite Hsep, Hdot.
  replace (-1 <? Z.of_nat (length base))%Z with true by (symmetry; apply Z.ltb_lt; lia).
  change (-1 + 1)%Z with (Z.of_nat 0).
  rewrite skip_leading_dots_split.
  - rewrite Nat2Z.id, firstn_app, firstn_all, Nat.sub_diag, skipn_app, skipn_all,
      Nat.sub_diag. simpl. rewrite app_nil_r. reflexivity.
  - apply In_nth_error in Hdash. destruct Hdash as [j Hj].
    exists j, chr_dash.
    assert (j < length base) by (apply nth_error_Some; congruence).
    split; [|split; [|discriminate]].
    + rewrite Z.sub_0_r, Nat2Z.id. lia.
    + rewrite nth_error_app1; assumption.
Qed.

Section NameShape.
Context {db : UnicodeDB}.

(** A composed name is a stem without slash followed by [".pdf"], and
    [splitext] gives that stem back. *)
Lemma build_new_name_shape ref seri pretty n :
  build_new_name ref seri pretty = Some n ->
  exists base, n = base ++ u ".pdf" /\ splitext n = (base, u ".pdf").
Proof.
  rewrite build_new_name_eq.
  destruct ref as [[|r ref]|]; try discriminate.
  destruct seri as [[|s seri]|]; try discriminate.
  intros H. injection H as <-. eexists. split; [reflexivity|].
  apply splitext_pdf; [|apply base_has_dash].
  intros Hin. apply sanitize_legal in Hin. discriminate Hin.
Qed.
End NameShape.

(** ** The collision loop *)

Lemma uint_chars_inj d1 d2 : uint_chars d1 = uint_chars d2 -> d1 = d2.
Proof.
  revert d2; induction d1; destruct d2; simpl; intros H;
    try discriminate H; try reflexivity; injection H as H; f_equal; auto.
Qed.

Lemma str_of_nat_inj a b : str_of_nat a = str_of_nat b -> a = b.
Proof. intros H. apply DecimalNat.Unsigned.to_uint_inj, uint_chars_inj, H. Qed.

Lemma numbered_inj n a b : numbered n (S a) = numbered n (S b) -> a = b.
Proof.
  unfold numbered. intros H.
  apply app_inv_head, app_inv_head, app_inv_tail, str_of_nat_inj in H.
  congruence.
Qed.

Lemma existsb_str_In x l : existsb (str_eqb x) l = true <-> In x l.
Proof.
  rewrite existsb_exists. split.
  - intros [y [Hin Hy]]. apply str_eqb_eq in Hy. subst; exact Hin.
  - intros H. exists x. split; [exact H | apply str_eqb_refl].
Qed.

Lemma existsb_str_not_In x l : existsb (str_eqb x) l = false <-> ~ In x l.
Proof.
  rewrite <- existsb_str_In. destruct (existsb (str_eqb x) l); split; congruence.
Qed.

(** The loop returns the first of the names [numbered n k], [numbered n (k+1)],
    ... that is not taken, as far as the fuel reaches. *)
Lemma dedup_loop_find existing n fuel : forall k,
  dedup_loop fuel existing n (numbered n k) (S k) =
  option_map (numbered n)
    (find (fun j => negb (existsb (str_eqb (numbered n j)) existing)) (seq k (S fuel))).
Proof.
  induction fuel as [|fuel IH]; intros k.
  - cbn [dedup_loop seq find].
    destruct (existsb (str_eqb (numbered n k)) existing); reflexivity.
  - cbn [dedup_loop]. change (seq k (S (S fuel))) with (k :: seq (S k) (S fuel)).
    cbn [find].
    destruct (existsb (str_eqb (numbered n k)) existing); [|reflexivity].
    cbn [negb]. destruct (splitext n) as [stem ext] eqn:E.
    rewrite <- IH. unfold numbered. rewrite E. reflexivity.
Qed.

Lemma find_seq_first (f : nat -> bool) len : forall start j,
  find f (seq start len) = Some j ->
  start <= j < start + len /\ f j = true /\ forall i, start <= i < j -> f i = false.
Proof.
  induction len as [|len IH]; intros start j; [discriminate|].
  cbn [seq find]. destruct (f start) eqn:E.
  - intros H; injection H as <-. repeat split; [lia | lia | exact E | intros; lia].
  - intros H. destruct (IH _ _ H) as [H1 [H2 H3]].
    repeat split; [lia | lia | exact H2 |].
    intros i Hi. destruct (Nat.eq_dec i start) as [->|]; [exact E | apply H3; lia].
Qed.

Lemma NoDup_map_numbered n len : NoDup (map (numbered n) (seq 1 len)).
Proof.
  assert (H : forall start, NoDup (map (numbered n) (seq (S start) len))).
  { induction len as [|len IH]; intros start; [constructor|].
    cbn [seq map]. constructor; [|apply IH].
    intros Hin. apply in_map_iff in Hin. destruct Hin as [j [Hj Hin]].
    apply in_seq in Hin. destruct j as [|j]; [lia|].
    apply numbered_inj in Hj. lia. }
  apply H.
Qed.

(** With one more unit of fuel than there are names taken, the loop finds a
    free name. *)
Lemma dedup_loop_total existing n :
  exists k,
    dedup_loop (S (length existing)) existing n n 1 = Some (numbered n k)
    /\ ~ In (numbered n k) existing
    /\ forall j, j < k -> In (numbered n j) existing.
Proof.
  change (dedup_loop (S (length existing)) existing n n 1)
    with (dedup_loop (S (length existing)) existing n (numbered n 0) 1).
  rewrite dedup_loop_find.
  destruct (find _ (seq 0 (S (S (length existing))))) as [k|] eqn:E.
  - exists k. apply find_seq_first in E. destruct E as [_ [Hk Hfirst]].
    split; [reflexivity|]. split.
    + apply existsb_str_not_In, negb_true_iff, Hk.
    + intros j Hj. apply existsb_str_In. specialize (Hfirst j).
      apply negb_false_iff, Hfirst. lia.
  - exfalso.
    assert (Hincl : incl (map (numbered n) (seq 1 (S (length existing)))) existing).
    { intros x Hx. apply in_map_iff in Hx. destruct Hx as [j [<- Hj]].
      apply existsb_str_In, negb_false_iff.
      apply (find_none _ _ E). apply in_seq in Hj. apply in_seq. lia. }
    apply NoDup_incl_length in Hincl; [|apply NoDup_map_numbered].
    rewrite length_map, length_seq in Hincl. lia.
Qed.

(** ** The Batch Processor *)

Lemma NoDup_snoc (l : list str) x : NoDup l -> ~ In x l -> NoDup (l ++ [x]).
Proof.
  induction 1 as [|y l Hy Hl IH]; intros Hx; simpl.
  - constructor; [intros [] | constructor].
  - constructor.
    + intros Hin. apply in_app_or in Hin. destruct Hin as [Hin|[->|[]]].
      * exact (Hy Hin).
      * apply Hx. left; reflexivity.
    + apply IH. intros Hin; apply Hx; right; exact Hin.
Qed.

Section BatchFacts.
Context {db : UnicodeDB}.
Variable pdf_pages : list byte -> option (list (option str)).

Lemma composed_name_shape fs n :
  composed_name pdf_pages fs = Some n ->
  exists base, n = base ++ u ".pdf" /\ splitext n = (base, u ".pdf").
Proof.
  unfold composed_name. destruct (parse_pdf_fields pdf_pages (content fs)) as [ref seri].
  apply build_new_name_shape.
Qed.

Lemma numbered_suffixed base k :
  splitext (base ++ u ".pdf") = (base, u ".pdf") ->
  numbered (base ++ u ".pdf") k = suffixed base k.
Proof. intros H. unfold numbered, suffixed. rewrite H. reflexivity. Qed.

(** A record whose name fails the extension test. *)
Lemma process_one_rejected dry_run i fs st :
  named_pdf fs = false ->
  process_one pdf_pages dry_run i fs st
  = Some (log st (u "❌ Bukan PDF: " ++ or_empty (filename fs))).
Proof. unfold process_one, named_pdf. intros ->. reflexivity. Qed.

(** A record without content. *)
Lemma process_one_empty dry_run i fs st :
  named_pdf fs = true -> content fs = [] ->
  process_one pdf_pages dry_run i fs st
  = Some (log (emit st (EvRead i)) (u "❌ File kosong: " ++ or_empty (filename fs))).
Proof. unfold process_one, named_pdf. intros -> ->. reflexivity. Qed.

(** A record for which no name is composed. *)
Lemma process_one_warned dry_run i fs st :
  named_pdf fs = true -> content fs <> [] -> composed_name pdf_pages fs = None ->
  process_one pdf_pages dry_run i fs st
  = Some (log (emit (emit st (EvRead i)) (EvExtract (content fs))) (log_line pdf_pages fs [])).
Proof.
  unfold process_one, log_line, composed_name. intros Hn Hc Hnone.
  unfold named_pdf in Hn. unfold named_pdf. rewrite Hn. cbn [negb].
  destruct (content fs) as [|b data] eqn:Ec; [elim Hc; reflexivity|].
  destruct (parse_pdf_fields pdf_pages (b :: data)) as [ref seri].
  rewrite Hnone. cbn [truthy].
  destruct (negb (truthy ref) && negb (truthy seri)); [reflexivity|].
  destruct (negb (truthy ref)); reflexivity.
Qed.

(** A record for which a name is composed: the final name is the first of
    the numbered names that no output carries yet. *)
Lemma process_one_accepted dry_run i fs st n :
  named_pdf fs = true -> content fs <> [] -> composed_name pdf_pages fs = Some n ->
  exists k,
    process_one pdf_pages dry_run i fs st = Some (accepted st i fs (numbered n k) dry_run)
    /\ ~ In (numbered n k) (map fst (outputs st))
    /\ forall j, j < k -> In (numbered n j) (map fst (outputs st)).
Proof.
  intros Hn Hc Hsome.
  destruct (composed_name_shape fs n Hsome) as [base [Hbase _]].
  destruct (dedup_loop_total (map fst (outputs st)) n) as [k [Hk [Hfresh Hmin]]].
  exists k. split; [|split; assumption].
  unfold process_one, accepted, composed_name in *.
  unfold named_pdf in Hn. rewrite Hn. cbn [negb].
  destruct (content fs) as [|b data] eqn:Ec; [elim Hc; reflexivity|].
  destruct (parse_pdf_fields pdf_pages (b :: data)) as [ref seri].
  rewrite Hsome. replace (truthy (Some n)) with true
    by (rewrite Hbase; destruct base; reflexivity).
  cbn [outputs emit]. rewrite Hk. reflexivity.
Qed.

Lemma log_line_accepted fs n final :
  named_pdf fs = true -> content fs <> [] -> composed_name pdf_pages fs = Some n ->
  log_line pdf_pages fs final = u "✅ " ++ or_empty (filename fs) ++ u " → " ++ final.
Proof.
  intros Hn Hc Hsome.
  destruct (composed_name_shape fs n Hsome) as [base [Hbase _]].
  unfold log_line, composed_name in *. rewrite Hn. cbn [negb].
  destruct (content fs) as [|b data] eqn:Ec; [elim Hc; reflexivity|].
  destruct (parse_pdf_fields pdf_pages (b :: data)) as [ref seri].
  rewrite Hsome, Hbase. destruct base; reflexivity.
Qed.

(** Every record is processed to the end: it adds one line, the line of
    that record, and at most one output, under a name not used before. *)
Lemma process_one_summary dry_run i fs st :
  exists st' final,
    process_one pdf_pages dry_run i fs st = Some st'
    /\ results st' = results st ++ [log_line pdf_pages fs final]
    /\ (outputs st' = outputs st
        \/ (outputs st' = outputs st ++ [(final, content fs)]
            /\ ~ In final (map fst (outputs st)))).
Proof.
  destruct (named_pdf fs) eqn:Hn.
  - destruct (content fs) as [|b data] eqn:Ec.
    + eexists. exists []. split; [apply process_one_empty; assumption|].
      split; [|left; reflexivity].
      unfold log_line. rewrite Hn, Ec. reflexivity.
    + assert (Hc : content fs <> []) by (rewrite Ec; discriminate).
      destruct (composed_name pdf_pages fs) as [n|] eqn:Hcomp.
      * destruct (process_one_accepted dry_run i fs st n Hn Hc Hcomp)
          as [k [Hk [Hfresh _]]].
        eexists. exists (numbered n k). split; [exact Hk|].
        rewrite (log_line_accepted fs n _ Hn Hc Hcomp).
        unfold accepted. rewrite Ec.
        destruct dry_run; (split; [reflexivity|]); [left; reflexivity|].
        right. split; [reflexivity | exact Hfresh].
      * eexists. exists []. split; [apply process_one_warned; assumption|].
        split; [reflexivity | left; reflexivity].
  - eexists. exists []. split; [apply process_one_rejected; assumption|].
    split; [|left; reflexivity].
    unfold log_line. rewrite Hn. reflexivity.
Qed.

Lemma process_from_summary dry_run files : forall i st,
  exists st' lines,
    process_from pdf_pages dry_run i files st = Some st'
    /\ results st' = results st ++ lines
    /\ Forall2 (fun fs line => exists final, line = log_line pdf_pages fs final) files lines
    /\ (NoDup (map fst (outputs st)) -> NoDup (map fst (outputs st'))).
Proof.
  induction files as [|fs files IH]; intros i st.
  - exists st, []. rewrite app_nil_r. repeat split; [constructor | trivial].
  - destruct (process_one_summary dry_run i fs st) as [st1 [final [H1 [Hres Hout]]]].
    destruct (IH (S i) st1) as [st' [lines [H2 [Hres' [Hall Hnd]]]]].
    exists st', (log_line pdf_pages fs final :: lines).
    cbn [process_from]. rewrite H1. split; [exact H2|]. split.
    + rewrite Hres', Hres, <- app_assoc. reflexivity.
    + split; [constructor; [exists final; reflexivity | exact Hall]|].
      intros Hst. apply Hnd. destruct Hout as [->|[-> Hfresh]]; [exact Hst|].
      rewrite map_app. apply NoDup_snoc; assumption.
Qed.

Lemma read_not_here (t : list event) i j e :
  In (EvRead j) (t ++ [EvRead i] ++ e) -> j <> i -> ~ In (EvRead j) e ->
  In (EvRead j) t.
Proof.
  intros Hin Hne He. apply in_app_or in Hin. destruct Hin as [Hin|Hin]; [exact Hin|].
  apply in_app_or in Hin. destruct Hin as [[Hin|[]]|Hin].
  - injection Hin as ->. elim Hne. reflexivity.
  - elim (He Hin).
Qed.

(** The events of one record: a read happens only at its own index and only
    when its name passed the extension test. *)
Lemma process_one_reads dry_run i fs st st' j :
  process_one pdf_pages dry_run i fs st = Some st' ->
  In (EvRead j) (trace st') ->
  In (EvRead j) (trace st) \/ (j = i /\ named_pdf fs = true).
Proof.
  intros H Hin. destruct (named_pdf fs) eqn:Hn.
  - destruct (Nat.eq_dec j i) as [->|Hne]; [right; auto|]. left.
    assert (Hextract : ~ In (EvRead j) [EvExtract (content fs)])
      by (intros [He|[]]; discriminate He).
    destruct (content fs) as [|b data] eqn:Ec.
    + rewrite (process_one_empty dry_run i fs st Hn Ec) in H. injection H as <-.
      cbn [trace log emit] in Hin.
      apply (read_not_here _ i j []); [exact Hin | exact Hne | intros []].
    + assert (Hc : content fs <> []) by (rewrite Ec; discriminate).
      rewrite <- Ec in Hextract.
      destruct (composed_name pdf_pages fs) as [n|] eqn:Hcomp.
      * destruct (process_one_accepted dry_run i fs st n Hn Hc Hcomp) as [k [Hk _]].
        rewrite Hk in H. injection H as <-. unfold accepted in Hin.
        apply (read_not_here _ i j [EvExtract (content fs)]); [|exact Hne|exact Hextract].
        destruct dry_run; cbn [trace log emit append_output] in Hin;
          rewrite <- app_assoc in Hin; exact Hin.
      * rewrite (process_one_warned dry_run i fs st Hn Hc Hcomp) in H. injection H as <-.
        cbn [trace log emit] in Hin.
        apply (read_not_here _ i j [EvExtract (content fs)]); [|exact Hne|exact Hextract].
        rewrite <- app_assoc in Hin; exact Hin.
  - rewrite (process_one_rejected dry_run i fs st Hn) in H. injection H as <-.
    left. exact Hin.
Qed.

Lemma process_from_reads dry_run files : forall i st st' j,
  process_from pdf_pages dry_run i files st = Some st' ->
  In (EvRead j) (trace st') ->
  In (EvRead j) (trace st)
  \/ (i <= j /\ exists fs, nth_error files (j - i) = Some fs /\ named_pdf fs = true).
Proof.
  induction files as [|fs files IH]; intros i st st' j H Hin.
  - injection H as <-. left; exact Hin.
  - cbn [process_from] in H.
    destruct (process_one pdf_pages dry_run i fs st) as [st1|] eqn:H1; [|discriminate].
    destruct (IH _ _ _ _ H Hin) as [Hin1|[Hle [fs' [Hnth Hn]]]].
    + destruct (process_one_reads dry_run i fs st st1 j H1 Hin1) as [?|[-> Hn]];
        [left; assumption|].
      right. split; [lia|]. exists fs. rewrite Nat.sub_diag. split; [reflexivity | exact Hn].
    + right. split; [lia|]. exists fs'. split; [|exact Hn].
      replace (j - i) with (S (j - S i)) by lia. exact Hnth.
Qed.
End BatchFacts.

(** C4: within one batch run all file names placed in the outputs are
    pairwise distinct; the final name of a record is its composed name when no
    output carries it yet, and otherwise the stem of that name with [" (N)"]
    before [".pdf"], for the first [N = 1, 2, 3, ...] that gives a name no
    output carries. *)
Theorem C4_batch_names_distinct {db : UnicodeDB}
    (pdf_pages : list byte -> option (list (option str))) :
  (forall files dry_run,
      exists lines outs,
        process_files pdf_pages files dry_run = Some (lines, outs)
        /\ NoDup (map fst outs))
  /\ (forall dry_run i fs st n,
        named_pdf fs = true -> content fs <> [] ->
        composed_name pdf_pages fs = Some n ->
        exists base k,
          n = base ++ u ".pdf"
          /\ process_one pdf_pages dry_run i fs st
             = Some (accepted st i fs (suffixed base k) dry_run)
          /\ ~ In (suffixed base k) (map fst (outputs st))
          /\ forall j, j < k -> In (suffixed base j) (map fst (outputs st))).
Proof.
  split.
  - intros files dry_run. unfold process_files, run_batch.
    destruct (process_from_summary pdf_pages dry_run files 0 empty_batch)
      as [st [lines [H [_ [_ Hnd]]]]].
    exists (results st), (outputs st). rewrite H.
    split; [reflexivity | apply Hnd; constructor].
  - intros dry_run i fs st n Hn Hc Hcomp.
    destruct (composed_name_shape pdf_pages fs n Hcomp) as [base [-> Hsplit]].
    destruct (process_one_accepted pdf_pages dry_run i fs st _ Hn Hc Hcomp)
      as [k [Hk [Hfresh Hmin]]].
    exists base, k. rewrite numbered_suffixed in Hk, Hfresh by exact Hsplit.
    repeat split; [exact Hk | exact Hfresh |].
    intros j Hj. rewrite <- numbered_suffixed by exact Hsplit. apply Hmin, Hj.
Qed.

Lemma C4_batch_names_distinct_witness :
  exists base k,
    Samples.name = base ++ u ".pdf"
    /\ process_one (db := ascii_only_db) Samples.pages false 1 Samples.file_b
         Samples.one_output
       = Some (accepted Samples.one_output 1 Samples.file_b (suffixed base k) false)
    /\ ~ In (suffixed base k) (map fst (outputs Samples.one_output))
    /\ forall j, j < k -> In (suffixed base j) (map fst (outputs Samples.one_output)).
Proof.
  apply (proj2 (C4_batch_names_distinct (db := ascii_only_db) Samples.pages)).
  - vm_compute. reflexivity.
  - discriminate.
  - vm_compute. reflexivity.
Defined.

(** The second of two records with the same composed name gets [" (1)"]. *)
Example second_record_suffixed :
  process_files (db := ascii_only_db) Samples.pages [Samples.file_a; Samples.file_b] false
  = Some ([ok_line Samples.file_a Samples.name;
           ok_line Samples.file_b (Samples.base ++ u " (1).pdf")],
          [(Samples.name, [x01]); (Samples.base ++ u " (1).pdf", [x02])]).
Proof. vm_compute. reflexivity. Qed.

(** C5: for every input sequence the Batch Processor runs to the end and
    produces exactly one log line per record, the line of that record, in the
    order of the input, whatever the outcome of each record is. *)
Theorem C5_one_log_line_per_record {db : UnicodeDB}
    (pdf_pages : list byte -> option (list (option str)))
    (files : list FileStorage) (dry_run : bool) :
  exists lines outs,
    process_files pdf_pages files dry_run = Some (lines, outs)
    /\ length lines = length files
    /\ Forall2 (fun fs line => exists final, line = log_line pdf_pages fs final)
         files lines.
Proof.
  unfold process_files, run_batch.
  destruct (process_from_summary pdf_pages dry_run files 0 empty_batch)
    as [st [lines [H [Hres [Hall _]]]]].
  exists lines, (outputs st). rewrite H. cbn [option_map]. simpl in Hres. rewrite Hres.
  split; [reflexivity|]. split; [|exact Hall].
  symmetry. apply (Forall2_length Hall).
Qed.

(** C10: a record whose file name is missing or does not end in [.pdf],
    whatever the case of its letters, is logged as rejected; nothing is read,
    nothing is handed to the PDF reader and nothing is added to the outputs,
    with or without the dry-run flag; in the trace of the whole batch there is
    no read of such a record. *)
Theorem C10_rejected_without_reading {db : UnicodeDB}
    (pdf_pages : list byte -> option (list (option str))) :
  (forall data, named_pdf {| filename := None; content := data |} = false)
  /\ (forall dry_run i fs st,
        named_pdf fs = false ->
        exists st',
          process_one pdf_pages dry_run i fs st = Some st'
          /\ results st' = results st ++ [u "❌ Bukan PDF: " ++ or_empty (filename fs)]
          /\ outputs st' = outputs st
          /\ trace st' = trace st)
  /\ (forall files dry_run st i fs,
        run_batch pdf_pages files dry_run = Some st ->
        nth_error files i = Some fs -> named_pdf fs = false ->
        ~ In (EvRead i) (trace st)).
Proof.
  split; [reflexivity|]. split.
  - intros dry_run i fs st Hn. eexists.
    split; [apply process_one_rejected, Hn|]. repeat split.
  - intros files dry_run st i fs Hrun Hnth Hn Hin.
    destruct (process_from_reads pdf_pages dry_run files 0 empty_batch st i Hrun Hin)
      as [[]|[_ [fs' [Hnth' Hn']]]].
    rewrite Nat.sub_0_r, Hnth in Hnth'. injection Hnth' as <-. congruence.
Qed.

Lemma C10_rejected_without_reading_witness :
  exists st',
    process_one (db := ascii_only_db) Samples.pages false 0 Samples.notes Samples.one_output
    = Some st'
    /\ results st' = results Samples.one_output
                     ++ [u "❌ Bukan PDF: " ++ or_empty (filename Samples.notes)]
    /\ outputs st' = outputs Samples.one_output
    /\ trace st' = trace Samples.one_output.
Proof.
  apply (proj1 (proj2 (C10_rejected_without_reading (db := ascii_only_db) Samples.pages))).
  vm_compute. reflexivity.
Defined.

Lemma suffixed_one_differs base : suffixed base 1 <> suffixed base 0.
Proof.
  unfold suffixed. intros H. apply app_inv_head in H. vm_compute in H. discriminate H.
Qed.

(** C9: the log depends on the dry-run flag.  For two records that compose
    the same name, a dry run logs both with that bare name and keeps no
    output, while a real run logs the second one with [" (1)"] before
    [".pdf"], the name of the first being among the outputs by then. *)
Theorem C9_log_depends_on_dry_run {db : UnicodeDB}
    (pdf_pages : list byte -> option (list (option str)))
    (f1 f2 : FileStorage) (n : str) :
  named_pdf f1 = true -> named_pdf f2 = true ->
  content f1 <> [] -> content f2 <> [] ->
  composed_name pdf_pages f1 = Some n -> composed_name pdf_pages f2 = Some n ->
  exists base,
    n = base ++ u ".pdf"
    /\ process_files pdf_pages [f1; f2] true
       = Some ([ok_line f1 n; ok_line f2 n], [])
    /\ process_files pdf_pages [f1; f2] false
       = Some ([ok_line f1 n; ok_line f2 (base ++ u " (1).pdf")],
               [(n, content f1); (base ++ u " (1).pdf", content f2)])
    /\ ok_line f2 n <> ok_line f2 (base ++ u " (1).pdf").
Proof.
  intros Hn1 Hn2 Hc1 Hc2 Hcomp1 Hcomp2.
  destruct (composed_name_shape pdf_pages f1 n Hcomp1) as [base [-> Hsplit]].
  exists base. split; [reflexivity|].
  assert (Hfirst : forall dry_run,
             process_one pdf_pages dry_run 0 f1 empty_batch
             = Some (accepted empty_batch 0 f1 (base ++ u ".pdf") dry_run)).
  { intros dry_run.
    destruct (process_one_accepted pdf_pages dry_run 0 f1 empty_batch _ Hn1 Hc1 Hcomp1)
      as [k [Hk [_ Hmin]]].
    destruct k as [|k]; [exact Hk|]. elim (Hmin 0). lia. }
  split; [|split].
  - destruct (process_one_accepted pdf_pages true 1 f2
                (accepted empty_batch 0 f1 (base ++ u ".pdf") true) _ Hn2 Hc2 Hcomp2)
      as [k [Hk [_ Hmin]]].
    destruct k as [|k]; [|elim (Hmin 0); lia].
    unfold process_files, run_batch. cbn [process_from]. rewrite Hfirst, Hk.
    reflexivity.
  - destruct (process_one_accepted pdf_pages false 1 f2
                (accepted empty_batch 0 f1 (base ++ u ".pdf") false) _ Hn2 Hc2 Hcomp2)
      as [k [Hk [Hfresh Hmin]]].
    rewrite numbered_suffixed in Hk, Hfresh by exact Hsplit.
    destruct k as [|[|k]].
    + elim Hfresh. left. reflexivity.
    + unfold process_files, run_batch. cbn [process_from]. rewrite Hfirst, Hk.
      reflexivity.
    + specialize (Hmin 1). rewrite numbered_suffixed in Hmin by exact Hsplit.
      destruct Hmin as [Heq|[]]; [lia|].
      elim (suffixed_one_differs base). symmetry. exact Heq.
  - unfold ok_line. intros H.
    apply app_inv_head, app_inv_head, app_inv_head in H.
    exact (suffixed_one_differs base (eq_sym H)).
Qed.

Lemma C9_log_depends_on_dry_run_witness :
  exists base,
    Samples.name = base ++ u ".pdf"
    /\ process_files (db := ascii_only_db) Samples.pages [Samples.file_a; Samples.file_b] true
       = Some ([ok_line Samples.file_a Samples.name; ok_line Samples.file_b Samples.name], [])
    /\ process_files (db := ascii_only_db) Samples.pages [Samples.file_a; Samples.file_b] false
       = Some ([ok_line Samples.file_a Samples.name;
                ok_line Samples.file_b (base ++ u " (1).pdf")],
               [(Samples.name, content Samples.file_a);
                (base ++ u " (1).pdf", content Samples.file_b)])
    /\ ok_line Samples.file_b Samples.name
       <> ok_line Samples.file_b (base ++ u " (1).pdf").
Proof.
  apply (C9_log_depends_on_dry_run (db := ascii_only_db) Samples.pages
           Samples.file_a Samples.file_b Samples.name).
  - vm_compute. reflexivity.
  - vm_compute. reflexivity.
  - discriminate.
  - discriminate.
  - vm_compute. reflexivity.
  - vm_compute. reflexivity.
Defined.

(** * Further properties of the code *)

(** ** [_sanitize], [_invoice_ref_to_filename] and [build_new_name] *)

Lemma filter_drop_while (f g : char -> bool) s :
  (forall c, g c = true -> f c = false) ->
  filter f (drop_while g s) = filter f s.
Proof.
  intros H. induction s as [|c s IH]; [reflexivity|].
  cbn [drop_while]. destruct (g c) eqn:E; [|reflexivity].
  cbn [filter]. rewrite (H c E). exact IH.
Qed.

Lemma filter_strip (f : char -> bool) s :
  (forall c, isspace c = true -> f c = false) ->
  filter f (strip s) = filter f s.
Proof.
  intros H. unfold strip, rstrip, lstrip.
  rewrite filter_rev, (filter_drop_while f isspace _ H), filter_rev, rev_involutive.
  apply filter_drop_while, H.
Qed.

Lemma visible_not_space c : isspace c = true -> visible c = false.
Proof. unfold visible. intros ->. reflexivity. Qed.

Lemma filter_visible_blank s : filter visible (map blank_illegal s) = filter visible s.
Proof.
  induction s as [|c s IH]; [reflexivity|].
  cbn [map filter]. rewrite IH. unfold blank_illegal, visible.
  destruct (is_illegal c) eqn:E; [|rewrite E; reflexivity].
  rewrite andb_false_r. reflexivity.
Qed.

Lemma filter_collapse (f : char -> bool) b s :
  (forall c, isspace c = true -> f c = false) ->
  filter f (collapse b s) = filter f s.
Proof.
  intros H. revert b; induction s as [|c s IH]; intros b; [reflexivity|].
  cbn [collapse filter]. destruct (isspace c) eqn:E.
  - rewrite (H c E). destruct b; [apply IH|].
    cbn [filter]. rewrite (H chr_space eq_refl). apply IH.
  - cbn [filter]. rewrite IH. reflexivity.
Qed.

Lemma collapse_length b s : length (collapse b s) <= length s.
Proof.
  revert b; induction s as [|c s IH]; intros b; [apply Nat.le_refl|].
  cbn [collapse]. destruct (isspace c); [destruct b|]; cbn [length].
  - specialize (IH true). lia.
  - specialize (IH true). lia.
  - specialize (IH false). lia.
Qed.

Lemma strip_length s : length (strip s) <= length s.
Proof.
  unfold strip. pose proof (rstrip_length (lstrip s)).
  pose proof (drop_while_length isspace s). unfold lstrip in *. lia.
Qed.

Lemma sanitize_length {db : UnicodeDB} (s : str) : length (_sanitize s) <= length s.
Proof.
  rewrite sanitize_eq.
  pose proof (collapse_length false (map blank_illegal (strip s))) as H.
  rewrite length_map in H. pose proof (strip_length s). lia.
Qed.

(** X1: what [_sanitize] returns holds none of the illegal characters, its
    only white space is the plain space, and no two spaces stand in a row. *)
Theorem sanitize_output_clean {db : UnicodeDB} (s : str) :
  (forall c, In c (_sanitize s) ->
             is_illegal c = false /\ (isspace c = true -> c = chr_space))
  /\ no_adjacent space_pair (_sanitize s) = true.
Proof.
  pose proof (sanitize_tidy s) as H. unfold tidy in H.
  apply andb_true_iff in H. destruct H as [Hall Hadj]. split; [|exact Hadj].
  intros c Hc. rewrite forallb_forall in Hall. specialize (Hall c Hc).
  unfold tidy_char in Hall. apply andb_true_iff in Hall. destruct Hall as [H1 H2].
  split; [apply negb_true_iff, H1|].
  intros Hs. rewrite Hs in H2. apply N.eqb_eq. exact H2.
Qed.

(** X2: [_sanitize] only touches white space and illegal characters: the other
    characters come out as they went in, in the same order, and the result is
    never longer than the input. *)
Theorem sanitize_keeps_visible_text {db : UnicodeDB} (s : str) :
  filter visible (_sanitize s) = filter visible s
  /\ length (_sanitize s) <= length s.
Proof.
  split; [|apply sanitize_length].
  rewrite sanitize_eq, (filter_collapse visible false _ visible_not_space),
    filter_visible_blank.
  apply filter_strip, visible_not_space.
Qed.

Lemma replace_one_length c x s : length (replace c [x] s) = length s.
Proof.
  unfold replace. induction s as [|y s IH]; [reflexivity|].
  cbn [flat_map]. rewrite length_app, IH. destruct (y =? c)%N; reflexivity.
Qed.

Lemma replace_removes c new s : ~ In c new -> ~ In c (replace c new s).
Proof.
  intros Hnew. unfold replace. induction s as [|y s IH]; [intros []|].
  cbn [flat_map]. intros Hin. apply in_app_or in Hin. destruct Hin as [Hin|Hin].
  - destruct (N.eqb_spec y c) as [->|Hne]; [exact (Hnew Hin)|].
    destruct Hin as [->|[]]. apply Hne. reflexivity.
  - exact (IH Hin).
Qed.

(** X5: whatever the display mode, [_invoice_ref_to_filename] returns a string
    of the same length that holds no ASCII slash. *)
Theorem invoice_ref_has_no_slash (ref : str) (allow_unicode_slash : bool) :
  ~ In chr_slash (_invoice_ref_to_filename ref allow_unicode_slash)
  /\ length (_invoice_ref_to_filename ref allow_unicode_slash) = length ref.
Proof.
  unfold _invoice_ref_to_filename. destruct allow_unicode_slash.
  - split; [|apply replace_one_length].
    apply replace_removes. intros [H|[]]. discriminate H.
  - split; [|apply (replace_one_length chr_slash chr_dash)].
    apply replace_removes. intros [H|[]]. discriminate H.
Qed.

(** X6: the pretty display mode loses nothing: for a reference that holds no
    full-width slash, putting the ASCII slash back for every full-width slash
    gives the reference again. *)
Theorem invoice_ref_round_trip (ref : str) :
  ~ In FULLWIDTH_SLASH ref ->
  replace FULLWIDTH_SLASH [chr_slash] (_invoice_ref_to_filename ref true) = ref.
Proof.
  unfold _invoice_ref_to_filename, replace. induction ref as [|c ref IH]; [reflexivity|].
  intros H. cbn [flat_map].
  assert (Hne : c <> FULLWIDTH_SLASH) by (intros ->; apply H; left; reflexivity).
  assert (IH' := IH (fun Hin => H (or_intror Hin))).
  destruct (N.eqb_spec c chr_slash) as [->|Hs]; cbn [app flat_map].
  - rewrite IH'. reflexivity.
  - destruct (N.eqb_spec c FULLWIDTH_SLASH) as [->|_]; [elim Hne; reflexivity|].
    cbn [app]. rewrite IH'. reflexivity.
Qed.

Lemma invoice_ref_round_trip_witness :
  replace FULLWIDTH_SLASH [chr_slash] (_invoice_ref_to_filename (u "INV/2025/09/0654") true)
  = u "INV/2025/09/0654".
Proof.
  apply invoice_ref_round_trip. vm_compute. intuition discriminate.
Defined.

(** The hyphen mode is not reversible: two references give one name. *)
Example invoice_ref_hyphen_collides :
  _invoice_ref_to_filename (u "A/B") false = _invoice_ref_to_filename (u "A-B") false.
Proof. reflexivity. Qed.

Lemma no_adjacent_space_app a b :
  no_adjacent space_pair a = true -> forallb not_space b = true ->
  no_adjacent space_pair (a ++ b) = true.
Proof.
  intros Ha Hb. induction a as [|x a IH]; cbn [app].
  - apply no_space_no_adjacent. exact Hb.
  - cbn [no_adjacent] in Ha |- *. apply andb_true_iff in Ha. destruct Ha as [Hx Ha].
    rewrite (IH Ha), andb_true_r.
    destruct a as [|y a]; [|exact Hx].
    destruct b as [|y b]; [reflexivity|].
    cbn [app starts_with]. cbn [forallb] in Hb. apply andb_true_iff in Hb.
    destruct Hb as [Hy _]. unfold not_space in Hy. apply negb_true_iff in Hy.
    unfold space_pair. rewrite Hy, andb_false_r. reflexivity.
Qed.

(** X7: [build_new_name] returns nothing exactly when one of the two fields is
    [None] or empty; the test of the sanitized base never fails. *)
Theorem build_new_name_none_iff {db : UnicodeDB} (ref seri : option str) (pretty : bool) :
  build_new_name ref seri pretty = None
  <-> truthy ref = false \/ truthy seri = false.
Proof.
  rewrite build_new_name_eq.
  destruct ref as [[|r ref]|]; cbn [truthy]; try (split; [auto | reflexivity]).
  destruct seri as [[|s seri]|]; cbn [truthy]; try (split; [auto | reflexivity]).
  split; [discriminate | intros [H|H]; discriminate H].
Qed.

Lemma build_new_name_safe_aux {db : UnicodeDB} (ref seri : option str) (pretty : bool)
    (n : str) :
  build_new_name ref seri pretty = Some n ->
  safe_name n = true /\ no_adjacent space_pair n = true /\ In chr_dash n.
Proof.
  rewrite build_new_name_eq.
  destruct ref as [[|r ref]|]; try discriminate.
  destruct seri as [[|s seri]|]; try discriminate.
  intros H. injection H as <-.
  set (base := _sanitize _).
  pose proof (sanitize_tidy (_invoice_ref_to_filename (_sanitize (r :: ref)) pretty
                             ++ u " - " ++ s :: seri)) as Ht.
  fold base in Ht. unfold tidy in Ht. apply andb_true_iff in Ht. destruct Ht as [Hall Hadj].
  split; [|split].
  - unfold safe_name. rewrite endswith_app, andb_true_r, forallb_app.
    apply andb_true_iff. split; [|reflexivity].
    apply forallb_forall. intros c Hc. rewrite forallb_forall in Hall.
    specialize (Hall c Hc). unfold tidy_char in Hall.
    apply andb_true_iff in Hall. apply Hall.
  - apply no_adjacent_space_app; [exact Hadj | reflexivity].
  - apply in_or_app. left. apply base_has_dash.
Qed.

(** X8: a name that [build_new_name] returns is safe and tidy: it holds no
    illegal character, ends in [.pdf], has no two white-space characters in a
    row, and holds the dash that joins reference and serial. *)
Theorem build_new_name_safe {db : UnicodeDB} (ref seri : option str) (pretty : bool)
    (n : str) :
  build_new_name ref seri pretty = Some n ->
  safe_name n = true /\ no_adjacent space_pair n = true /\ In chr_dash n.
Proof. apply build_new_name_safe_aux. Qed.

Lemma build_new_name_safe_witness :
  safe_name (u "INV 2025 09 0654 - 123456789.pdf") = true
  /\ no_adjacent space_pair (u "INV 2025 09 0654 - 123456789.pdf") = true
  /\ In chr_dash (u "INV 2025 09 0654 - 123456789.pdf").
Proof.
  apply (build_new_name_safe (db := ascii_only_db)
           (Some (u "INV/2025/09/0654")) (Some (u "123456789")) true).
  vm_compute. reflexivity.
Defined.

(** X9: the display mode does not reach the name: [_sanitize] has removed every
    slash before the substitution, so both modes give the same name. *)
Theorem build_new_name_ignores_pretty_slash {db : UnicodeDB} (ref seri : option str) :
  build_new_name ref seri true = build_new_name ref seri false.
Proof.
  rewrite !build_new_name_eq.
  destruct ref as [[|r ref]|]; try reflexivity.
  destruct seri as [[|s seri]|]; try reflexivity.
  rewrite !slash_substitution_after_sanitize. reflexivity.
Qed.

(** ** [_normalize_for_search] *)

Lemma is_slash_eq c : is_slash c = true -> c = chr_slash.
Proof. unfold is_slash. apply N.eqb_eq. Qed.

Lemma not_space_of_space c : isspace c = true -> not_space c = false.
Proof. unfold not_space. intros ->. reflexivity. Qed.

Lemma collapse_plain_id s :
  plain_spaces s = true -> no_adjacent space_pair s = true -> collapse false s = s.
Proof.
  unfold plain_spaces. induction s as [|c s IH]; [reflexivity|].
  cbn [forallb no_adjacent collapse]. rewrite !andb_true_iff.
  intros [Hc Hall] [Hadj Hrest].
  pose proof (IH Hall Hrest) as IH'.
  destruct (isspace c) eqn:E; [|rewrite IH'; reflexivity].
  simpl in Hc. apply N.eqb_eq in Hc. subst c.
  rewrite collapse_true_false; [rewrite IH'; reflexivity|].
  apply negb_true_iff in Hadj. destruct s as [|y s]; [reflexivity|].
  simpl in Hadj |- *. unfold space_pair in Hadj. rewrite E in Hadj. exact Hadj.
Qed.

Lemma collapse_plain b s : plain_spaces (collapse b s) = true.
Proof.
  apply forallb_forall. intros c Hc. apply collapse_in in Hc.
  destruct Hc as [->|[_ Hc]]; [reflexivity | rewrite Hc; reflexivity].
Qed.

Section NormalizeMore.
Context {db : UnicodeDB}.

Lemma sub_around_slash_nil prev : sub_from RE_AROUND_SLASH (u "/") prev [] 0 = [].
Proof. reflexivity. Qed.

Lemma sub_around_slash_keeps n : forall s prev,
  length s <= n ->
  filter not_space (sub_from RE_AROUND_SLASH (u "/") prev s 0) = filter not_space s.
Proof.
  induction n as [|n IH]; intros s prev Hn.
  - destruct s; [reflexivity | simpl in Hn; lia].
  - destruct (starts_with is_slash (lstrip s)) eqn:E.
    + destruct (lstrip s) as [|c t] eqn:Hl; [discriminate|]. simpl in E.
      destruct (sub_around_slash_hit prev s c t Hl E) as [p ->].
      destruct (drop_while_suffix isspace s) as [w1 [H1 _]].
      fold (lstrip s) in H1. rewrite Hl in H1.
      rewrite <- (filter_drop_while not_space isspace s not_space_of_space).
      fold (lstrip s). rewrite Hl.
      apply is_slash_eq in E. subst c. cbn [filter]. change (not_space chr_slash) with true.
      cbn iota. f_equal.
      rewrite IH.
      * apply (filter_drop_while not_space isspace t not_space_of_space).
      * pose proof (drop_while_length isspace t) as Hlen. unfold lstrip.
        assert (length s = length w1 + S (length t))
          by (rewrite H1 at 1; rewrite length_app; reflexivity).
        lia.
    + destruct s as [|x s]; [reflexivity|].
      rewrite (sub_around_slash_miss prev _ _ E). cbn [filter].
      rewrite IH by (simpl in Hn; lia). reflexivity.
Qed.

Lemma sub_around_slash_forallb (P : char -> bool) n :
  P chr_slash = true ->
  forall s prev, length s <= n -> forallb P s = true ->
  forallb P (sub_from RE_AROUND_SLASH (u "/") prev s 0) = true.
Proof.
  intros HP. induction n as [|n IH]; intros s prev Hn Hs.
  - destruct s; [reflexivity | simpl in Hn; lia].
  - destruct (starts_with is_slash (lstrip s)) eqn:E.
    + destruct (lstrip s) as [|c t] eqn:Hl; [discriminate|]. simpl in E.
      destruct (sub_around_slash_hit prev s c t Hl E) as [p ->].
      destruct (drop_while_suffix isspace s) as [w1 [H1 _]].
      destruct (drop_while_suffix isspace t) as [w2 [H2 _]].
      fold (lstrip s) in H1. fold (lstrip t) in H2. rewrite Hl in H1.
      cbn [forallb]. rewrite HP. cbn [andb]. apply IH.
      * assert (length s = length w1 + S (length w2 + length (lstrip t))).
        { rewrite H1 at 1. rewrite length_app. simpl. rewrite H2 at 1.
          rewrite length_app. reflexivity. }
        lia.
      * rewrite H1, forallb_app in Hs. apply andb_true_iff in Hs. destruct Hs as [_ Hs].
        cbn [forallb] in Hs. apply andb_true_iff in Hs. destruct Hs as [_ Hs].
        rewrite H2, forallb_app in Hs. apply andb_true_iff in Hs. apply Hs.
    + destruct s as [|x s]; [reflexivity|].
      rewrite (sub_around_slash_miss prev _ _ E).
      cbn [forallb] in Hs |- *. apply andb_true_iff in Hs. destruct Hs as [Hx Hs].
      rewrite Hx. cbn [andb]. apply IH; [simpl in Hn; lia | exact Hs].
Qed.

(** Tightening the slashes of a text that has no white space beside a slash
    changes nothing. *)
Lemma sub_around_slash_id s : forall prev,
  no_adjacent untidy_pair s = true ->
  sub_from RE_AROUND_SLASH (u "/") prev s 0 = s.
Proof.
  induction s as [|x s IH]; intros prev Hs; [reflexivity|].
  cbn [no_adjacent] in Hs. apply andb_true_iff in Hs. destruct Hs as [Hx Hs].
  apply negb_true_iff in Hx.
  destruct (is_slash x) eqn:Ex.
  - assert (Hsp : isspace x = false).
    { apply is_slash_eq in Ex. subst x. reflexivity. }
    assert (Hl : lstrip (x :: s) = x :: s) by (apply lstrip_id; exact Hsp).
    destruct (sub_around_slash_hit prev (x :: s) x s Hl Ex) as [p ->].
    apply is_slash_eq in Ex. subst x. f_equal.
    rewrite lstrip_id; [apply IH, Hs|].
    destruct s as [|y s]; [reflexivity|]. simpl in Hx |- *.
    unfold untidy_pair in Hx. simpl in Hx. exact Hx.
  - rewrite sub_around_slash_miss; [rewrite (IH _ Hs); reflexivity|].
    unfold lstrip. cbn [drop_while].
    destruct (isspace x) eqn:Esp; [|simpl; exact Ex].
    destruct s as [|y s]; [reflexivity|].
    simpl in Hx. unfold untidy_pair in Hx. rewrite Esp in Hx. simpl in Hx.
    apply orb_false_iff in Hx. destruct Hx as [Hx _].
    apply orb_false_iff in Hx. destruct Hx as [Hy Hys].
    cbn [drop_while]. rewrite Hy. simpl. exact Hys.
Qed.

Lemma normalize_plain s : plain_spaces (_normalize_for_search s) = true.
Proof.
  rewrite normalize_collapse. unfold re_sub, plain_spaces.
  apply (sub_around_slash_forallb _ (length (collapse false s)));
    [reflexivity | lia | apply collapse_plain].
Qed.
End NormalizeMore.

(** X3: [_normalize_for_search] only removes or replaces white space: the
    characters that are no white space come out as they went in, in the same
    order. *)
Theorem normalize_keeps_text {db : UnicodeDB} (s : str) :
  filter not_space (_normalize_for_search s) = filter not_space s.
Proof.
  rewrite normalize_collapse. unfold re_sub.
  rewrite (sub_around_slash_keeps (length (collapse false s))) by lia.
  apply filter_collapse, not_space_of_space.
Qed.

(** X4: [_normalize_for_search] is idempotent. *)
Theorem normalize_idempotent {db : UnicodeDB} (s : str) :
  _normalize_for_search (_normalize_for_search s) = _normalize_for_search s.
Proof.
  pose proof (normalize_no_untidy_pair s) as Ht.
  pose proof (normalize_plain s) as Hp.
  rewrite (normalize_collapse (_normalize_for_search s)).
  rewrite collapse_plain_id; [apply sub_around_slash_id, Ht | exact Hp |].
  apply (no_adjacent_weaken untidy_pair); [|exact Ht].
  intros x y H. unfold untidy_pair. unfold space_pair in H. rewrite H. reflexivity.
Qed.

(** ** The matcher against the patterns read as sets of strings *)

Section Soundness.
Context {db : UnicodeDB}.
Variable ic : bool.

Lemma rep_stop_consumes a (k : cont) P lo hi prev s g rest g' :
  consumes P k ->
  (if lo =? 0 then k prev s g else None) = Some (rest, g') ->
  exists w, s = w ++ rest
    /\ exists w1 w2, w = w1 ++ w2 /\ lo <= length w1 /\ hi_bound hi (length w1)
                     /\ forallb (atom_match ic a) w1 = true /\ P w2.
Proof.
  intros Hk H. destruct lo; [|discriminate]. cbn in H.
  destruct (Hk _ _ _ _ _ H) as [w [Hs Hw]].
  exists w. split; [exact Hs|]. exists [], w. repeat split; [apply Nat.le_refl| |exact Hw].
  destruct hi; cbn; [lia | exact I].
Qed.

Lemma rep_more_consumes a P lo hi c w rest (s : str) :
  (hi_allows hi && atom_match ic a c) = true ->
  s = w ++ rest ->
  (exists w1 w2, w = w1 ++ w2 /\ pred lo <= length w1
                 /\ hi_bound (option_map pred hi) (length w1)
                 /\ forallb (atom_match ic a) w1 = true /\ P w2) ->
  exists w', c :: s = w' ++ rest
    /\ exists w1 w2, w' = w1 ++ w2 /\ lo <= length w1 /\ hi_bound hi (length w1)
                     /\ forallb (atom_match ic a) w1 = true /\ P w2.
Proof.
  intros E -> [w1 [w2 [-> [Hlo [Hhi [Hall HP]]]]]].
  apply andb_true_iff in E. destruct E as [Eh Ec].
  exists (c :: w1 ++ w2). split; [reflexivity|].
  exists (c :: w1), w2. repeat split.
  - cbn [length]. lia.
  - destruct hi as [[|h]|]; cbn in *; [discriminate | lia | exact I].
  - cbn [forallb]. rewrite Ec, Hall. reflexivity.
  - exact HP.
Qed.

Lemma rep_greedy_consumes a (k : cont) P :
  consumes P k ->
  forall lo hi,
    consumes (fun w => exists w1 w2,
                w = w1 ++ w2 /\ lo <= length w1 /\ hi_bound hi (length w1)
                /\ forallb (atom_match ic a) w1 = true /\ P w2)
      (rep_greedy ic a k lo hi).
Proof.
  intros Hk lo hi prev s. revert lo hi prev.
  induction s as [|c s IH]; intros lo hi prev g rest g'; cbn [rep_greedy].
  - apply rep_stop_consumes, Hk.
  - destruct (hi_allows hi && atom_match ic a c) eqn:E;
      [|apply rep_stop_consumes, Hk].
    destruct (rep_greedy ic a k (pred lo) (option_map pred hi) (Some c) s g)
      as [[r1 g1]|] eqn:R; [|apply rep_stop_consumes, Hk].
    intros H; injection H as <- <-.
    destruct (IH _ _ _ _ _ _ R) as [w [Hs Hw]].
    exact (rep_more_consumes a P lo hi c w r1 s E Hs Hw).
Qed.

Lemma rep_lazy_consumes a (k : cont) P :
  consumes P k ->
  forall lo hi,
    consumes (fun w => exists w1 w2,
                w = w1 ++ w2 /\ lo <= length w1 /\ hi_bound hi (length w1)
                /\ forallb (atom_match ic a) w1 = true /\ P w2)
      (rep_lazy ic a k lo hi).
Proof.
  intros Hk lo hi prev s. revert lo hi prev.
  induction s as [|c s IH]; intros lo hi prev g rest g'; cbn [rep_lazy].
  - destruct (if lo =? 0 then k prev [] g else None) as [[r1 g1]|] eqn:E; [|discriminate].
    intros H; injection H as <- <-. exact (rep_stop_consumes a k P lo hi _ _ _ _ _ Hk E).
  - destruct (if lo =? 0 then k prev (c :: s) g else None) as [[r1 g1]|] eqn:E.
    + intros H; injection H as <- <-. exact (rep_stop_consumes a k P lo hi _ _ _ _ _ Hk E).
    + destruct (hi_allows hi && atom_match ic a c) eqn:Ec; [|discriminate].
      intros R. destruct (IH _ _ _ _ _ _ R) as [w [Hs Hw]].
      exact (rep_more_consumes a P lo hi c w rest s Ec Hs Hw).
Qed.

Lemma node_cont_consumes n ns (k : cont) :
  consumes (matches_nodes ic ns) k ->
  consumes (matches_nodes ic (n :: ns)) (node_cont ic n k).
Proof.
  intros Hk. destruct n as [a|[|] lo hi a| |name|name]; cbn [matches_nodes].
  - intros prev [|c s] g rest g'; cbn [node_cont]; [discriminate|].
    destruct (atom_match ic a c) eqn:E; [|discriminate].
    intros H. destruct (Hk _ _ _ _ _ H) as [w [-> Hw]].
    exists (c :: w). split; [reflexivity|]. exists c, w. auto.
  - exact (rep_greedy_consumes a k _ Hk lo hi).
  - exact (rep_lazy_consumes a k _ Hk lo hi).
  - intros prev s g rest g'; cbn [node_cont].
    destruct (xorb (opt_isword prev) (opt_isword (hd_error s))); [apply Hk | discriminate].
  - intros prev s g rest g'; cbn [node_cont]. apply Hk.
  - intros prev s g rest g'; cbn [node_cont]. apply Hk.
Qed.

Lemma run_consumes ns (k : cont) :
  consumes (fun w => w = []) k -> consumes (matches_nodes ic ns) (run ic ns k).
Proof.
  intros Hk. induction ns as [|n ns IH]; [exact Hk|].
  exact (node_cont_consumes n ns _ IH).
Qed.

Lemma accept_consumes from noempty : consumes (fun w => w = []) (accept from noempty).
Proof.
  intros prev s g rest g'. unfold accept.
  destruct (noempty && (length s =? length from)); [discriminate|].
  intros H; injection H as <- _. exists []. split; reflexivity.
Qed.
End Soundness.

Section SearchSound.
Context {db : UnicodeDB}.
Variable re : regex.

(** What the matcher accepts at a position is a string of the pattern. *)
Lemma match_at_sound noempty prev s rest g :
  match_at re noempty prev s = Some (rest, g) ->
  exists w, s = w ++ rest /\ matches_nodes (re_ignorecase re) (re_nodes re) w.
Proof. apply run_consumes, accept_consumes. Qed.

Lemma between_app w rest : between (w ++ rest) rest = w.
Proof.
  unfold between. rewrite length_app.
  replace (length w + length rest - length rest) with (length w) by lia.
  rewrite firstn_app, firstn_all, Nat.sub_diag. cbn [firstn]. apply app_nil_r.
Qed.

(** What [re.search] returns: a match object whose [group(0)] is a string of
    the pattern and lies in the subject, and whose marks are those of a match
    tried at its start. *)
Lemma re_search_sound s m :
  re_search re s = Some m ->
  matches_nodes (re_ignorecase re) (re_nodes re) (group0 m)
  /\ (exists before, s = before ++ group0 m ++ m_rest m)
  /\ exists prev, match_at re false prev (m_from m) = Some (m_rest m, m_marks m).
Proof.
  unfold re_search. generalize (@None char) as prev.
  induction s as [|c s IH]; intros prev; cbn [search_from].
  - destruct (match_at re false prev []) as [[rest g]|] eqn:E; [|discriminate].
    intros H; injection H as <-. destruct (match_at_sound _ _ _ _ _ E) as [w [Hw Hm]].
    unfold group0. cbn [m_from m_rest m_marks]. rewrite Hw, between_app.
    split; [exact Hm|]. split; [exists []; reflexivity|].
    exists prev. rewrite <- Hw. exact E.
  - destruct (match_at re false prev (c :: s)) as [[rest g]|] eqn:E.
    + intros H; injection H as <-. destruct (match_at_sound _ _ _ _ _ E) as [w [Hw Hm]].
      unfold group0. cbn [m_from m_rest m_marks]. rewrite Hw, between_app.
      split; [exact Hm|]. split; [exists []; reflexivity|].
      exists prev. rewrite <- Hw. exact E.
    + intros H. destruct (IH _ H) as [Hm [[before Hs] Hp]].
      split; [exact Hm|]. split; [|exact Hp].
      exists (c :: before). cbn [app]. f_equal. exact Hs.
Qed.
End SearchSound.

(** ** The strict pattern and the [Referensi] pattern *)

Section StrictShape.
Context {db : UnicodeDB}.

Lemma strict_language w :
  matches_nodes true (re_nodes RE_INV_STRICT) w -> is_strict_ref w = true.
Proof.
  intros H. cbn in H.
  repeat match type of H with
         | exists _, _ => let x := fresh "x" in destruct H as [x H]
         | _ /\ _ => let h := fresh "h" in destruct H as [h H]
         end.
  subst.
  repeat match goal with
         | h1 : 4 <= length ?l, h2 : length ?l <= 4 |- _ =>
             destruct l as [|? [|? [|? [|? [|? ?]]]]]; cbn [length] in h1, h2;
             try lia; clear h1 h2
         | h1 : 2 <= length ?l, h2 : length ?l <= 2 |- _ =>
             destruct l as [|? [|? [|? ?]]]; cbn [length] in h1, h2;
             try lia; clear h1 h2
         end.
  cbn in *.
  repeat match goal with
         | h : _ && _ = true |- _ => apply andb_true_iff in h; destruct h
         end.
  unfold is_slash, chr_slash in *.
  repeat match goal with
         | h : ?t = true |- context [?t] => rewrite h; clear h
         end.
  reflexivity.
Qed.

Lemma is_strict_ref_length w : is_strict_ref w = true -> length w = 16.
Proof.
  unfold is_strict_ref.
  do 16 (destruct w as [|? w]; [discriminate|]).
  destruct w; [reflexivity | discriminate].
Qed.

(** The strict pattern finds nothing in a text of fewer than 16 characters. *)
Lemma strict_needs_16 s : length s < 16 -> re_search RE_INV_STRICT s = None.
Proof.
  intros Hlen. destruct (re_search RE_INV_STRICT s) as [m|] eqn:E; [|reflexivity].
  destruct (re_search_sound RE_INV_STRICT s m E) as [Hm [[before Hs] _]].
  apply strict_language, is_strict_ref_length in Hm.
  rewrite Hs, !length_app in Hlen. lia.
Qed.
End StrictShape.

(** X10: whatever the strict pattern matches is sixteen characters long: three
    characters that match [INV] without regard to case, then a slash, four
    decimal digits, a slash, two decimal digits, a slash and four decimal
    digits; and it lies in the text searched. *)
Theorem strict_match_shape {db : UnicodeDB} (s : str) (m : rmatch) :
  re_search RE_INV_STRICT s = Some m ->
  is_strict_ref (group0 m) = true
  /\ exists before, s = before ++ group0 m ++ m_rest m.
Proof.
  intros E. destruct (re_search_sound RE_INV_STRICT s m E) as [Hm [Hs _]].
  split; [apply strict_language, Hm | exact Hs].
Qed.

Lemma strict_match_shape_witness :
  is_strict_ref (db := ascii_only_db) (u "inv/2025/09/0654") = true
  /\ exists before,
       u "no. inv/2025/09/0654." = before ++ u "inv/2025/09/0654" ++ u ".".
Proof.
  exact (strict_match_shape (db := ascii_only_db) (u "no. inv/2025/09/0654.")
           {| m_from := u "inv/2025/09/0654."; m_rest := u "."; m_marks := [] |}
           eq_refl).
Defined.

Section Marks.
Context {db : UnicodeDB}.
Variable ic : bool.

Lemma rep_greedy_marks a (k : cont) Q lo hi :
  marks_post Q k -> marks_post Q (rep_greedy ic a k lo hi).
Proof.
  intros Hk prev s. revert lo hi prev.
  induction s as [|c s IH]; intros lo hi prev g rest g'; cbn [rep_greedy].
  - destruct (lo =? 0); [apply Hk | discriminate].
  - destruct (hi_allows hi && atom_match ic a c).
    + destruct (rep_greedy ic a k (pred lo) (option_map pred hi) (Some c) s g)
        as [[r1 g1]|] eqn:R.
      * intros H; injection H as <- <-. exact (IH _ _ _ _ _ _ R).
      * destruct (lo =? 0); [apply Hk | discriminate].
    + destruct (lo =? 0); [apply Hk | discriminate].
Qed.

Lemma rep_lazy_marks a (k : cont) Q lo hi :
  marks_post Q k -> marks_post Q (rep_lazy ic a k lo hi).
Proof.
  intros Hk prev s. revert lo hi prev.
  induction s as [|c s IH]; intros lo hi prev g rest g'; cbn [rep_lazy].
  - destruct (lo =? 0); [|discriminate].
    destruct (k prev [] g) as [[r1 g1]|] eqn:E; [|discriminate].
    intros H; injection H as <- <-. exact (Hk _ _ _ _ _ E).
  - assert (Hmore : (if hi_allows hi && atom_match ic a c
                     then rep_lazy ic a k (pred lo) (option_map pred hi) (Some c) s g
                     else None) = Some (rest, g') -> Q g g').
    { destruct (hi_allows hi && atom_match ic a c); [apply IH | discriminate]. }
    destruct (lo =? 0); [|exact Hmore].
    destruct (k prev (c :: s) g) as [[r1 g1]|] eqn:E; [|exact Hmore].
    intros H; injection H as <- <-. exact (Hk _ _ _ _ _ E).
Qed.

Lemma node_cont_marks n (k : cont) Q :
  no_group n = true -> marks_post Q k -> marks_post Q (node_cont ic n k).
Proof.
  intros Hn Hk. destruct n as [a|[|] lo hi a| |name|name]; try discriminate Hn.
  - intros prev [|c s] g rest g'; cbn [node_cont]; [discriminate|].
    destruct (atom_match ic a c); [apply Hk | discriminate].
  - exact (rep_greedy_marks a k Q lo hi Hk).
  - exact (rep_lazy_marks a k Q lo hi Hk).
  - intros prev s g rest g'; cbn [node_cont].
    destruct (xorb (opt_isword prev) (opt_isword (hd_error s))); [apply Hk | discriminate].
Qed.

Lemma run_marks ns (k : cont) Q :
  forallb no_group ns = true -> marks_post Q k -> marks_post Q (run ic ns k).
Proof.
  intros Hns Hk. induction ns as [|n ns IH]; [exact Hk|].
  cbn [forallb] in Hns. apply andb_true_iff in Hns. destruct Hns as [Hn Hns].
  exact (node_cont_marks n _ Q Hn (IH Hns)).
Qed.

Lemma run_app ns1 ns2 (k : cont) : run ic (ns1 ++ ns2) k = run ic ns1 (run ic ns2 k).
Proof. unfold run. apply fold_right_app. Qed.

Lemma accept_always from : always_accepts (accept from false).
Proof. intros prev s g. exists s. reflexivity. Qed.

Lemma rep_greedy_always a (k : cont) hi :
  always_accepts k -> always_accepts (rep_greedy ic a k 0 hi).
Proof.
  intros Hk prev s. revert hi prev.
  induction s as [|c s IH]; intros hi prev g; cbn [rep_greedy Nat.eqb]; [apply Hk|].
  destruct (hi_allows hi && atom_match ic a c); [|apply Hk].
  cbn [pred]. destruct (IH (option_map pred hi) (Some c) g) as [r ->].
  exists r. reflexivity.
Qed.

Lemma rep_lazy_zero a (k : cont) hi prev s g r :
  k prev s g = Some r -> rep_lazy ic a k 0 hi prev s g = Some r.
Proof. intros H. destruct s; cbn [rep_lazy Nat.eqb]; rewrite H; reflexivity. Qed.
End Marks.

Section ReferensiGroup.
Context {db : UnicodeDB}.

Lemma ref_tail_marks from :
  marks_post
    (fun g g' => exists c ahead,
       g' = ("ref"%string, true, ahead) :: ("ref"%string, false, c :: ahead) :: g)
    (run true
       [GroupOpen "ref"; plus_lazy (SetOf true [ILit 41%N; ILit 10%N; ILit 13%N]);
        GroupClose "ref"; star (Cat CatSpace); opt (lit1 ")")]
       (accept from false)).
Proof.
  intros prev s g rest g'. unfold plus_lazy, star, opt.
  cbn [run fold_right]. cbn [node_cont].
  destruct s as [|c s]; cbn [rep_lazy Nat.eqb]; [discriminate|].
  destruct (hi_allows None && _); [|discriminate].
  cbn [pred option_map].
  destruct (rep_greedy_always true (Cat CatSpace)
              (rep_greedy true (lit1 ")") (accept from false) 0 (Some 1)) None
              (rep_greedy_always true (lit1 ")") _ (Some 1) (accept_always from))
              (Some c) s (("ref"%string, true, s) :: ("ref"%string, false, c :: s) :: g))
    as [r Hr].
  erewrite rep_lazy_zero; [|cbn [node_cont]; exact Hr].
  intros H; injection H as _ <-. exists c, s. reflexivity.
Qed.

(** The group of a match of [RE_REF] is one character. *)
Lemma ref_group_one prev s rest g :
  match_at RE_REF false prev s = Some (rest, g) ->
  exists c ahead, g = [("ref"%string, true, ahead); ("ref"%string, false, c :: ahead)].
Proof.
  unfold match_at.
  change (re_nodes RE_REF)
    with (([opt (lit1 "("); star (Cat CatSpace)] ++ lits "Referensi"
           ++ [opt (lit1 ":"); star (Cat CatSpace)])
          ++ [GroupOpen "ref"; plus_lazy (SetOf true [ILit 41%N; ILit 10%N; ILit 13%N]);
              GroupClose "ref"; star (Cat CatSpace); opt (lit1 ")")]).
  rewrite run_app.
  match goal with
  | |- run _ ?pre ?k _ _ _ = _ -> _ =>
      intros H;
      exact (run_marks true pre k
               (fun g g' => exists c ahead,
                  g' = ("ref"%string, true, ahead) :: ("ref"%string, false, c :: ahead) :: g)
               eq_refl (ref_tail_marks s) _ _ _ _ _ H)
  end.
Qed.

Lemma ref_search_group s m :
  re_search RE_REF s = Some m -> exists c, group m "ref" = [c].
Proof.
  intros E. destruct (re_search_sound RE_REF s m E) as [_ [_ [prev Hp]]].
  destruct (ref_group_one _ _ _ _ Hp) as [c [ahead Hg]].
  exists c. unfold group. rewrite Hg. cbn [find_mark String.eqb Ascii.eqb Bool.eqb andb].
  exact (between_app [c] ahead).
Qed.
End ReferensiGroup.

(** X11: the group of the [Referensi] pattern is lazy and nothing after it has
    to match, so whenever the pattern is found the group holds exactly one
    character. *)
Theorem referensi_group_one_char {db : UnicodeDB} (s : str) (m : rmatch) :
  re_search RE_REF s = Some m -> length (group m "ref") = 1.
Proof.
  intros E. destruct (ref_search_group s m E) as [c ->]. reflexivity.
Qed.

Lemma referensi_group_one_char_witness :
  length (group {| m_from := u "(Referensi: ABC-123) x";
                   m_rest := u "BC-123) x";
                   m_marks := [("ref"%string, true, u "BC-123) x");
                               ("ref"%string, false, u "ABC-123) x")] |} "ref") = 1.
Proof.
  apply (referensi_group_one_char (db := ascii_only_db) (u "lihat (Referensi: ABC-123) x")).
  vm_compute. reflexivity.
Defined.

(** ** The fields that [parse_pdf_fields] returns *)

Section Fallback.
Context {db : UnicodeDB}.

Lemma sanitize_one c :
  _sanitize [c] = if visible c then [c] else if isspace c then [] else [chr_space].
Proof.
  rewrite sanitize_eq. unfold strip, rstrip, lstrip, visible.
  cbn [drop_while]. destruct (isspace c) eqn:E; [reflexivity|].
  cbn [rev app drop_while]. rewrite E. cbn [rev app map negb andb].
  unfold blank_illegal. destruct (is_illegal c); [reflexivity|].
  cbn [collapse negb]. rewrite E. reflexivity.
Qed.

Lemma fallback_reference raw :
  re_search RE_INV_STRICT (_normalize_for_search raw) = None ->
  fst (parse_text raw) =
  match re_search RE_REF (_normalize_for_search raw) with
  | Some m => if forallb visible (group m "ref") then Some (group m "ref") else None
  | None => None
  end.
Proof.
  intros H. unfold parse_text, find_ref. rewrite H. cbn [fst].
  destruct (re_search RE_REF (_normalize_for_search raw)) as [m|] eqn:E; [|reflexivity].
  destruct (ref_search_group _ m E) as [c ->].
  cbn [forallb]. rewrite andb_true_r, sanitize_one.
  destruct (visible c) eqn:V.
  - rewrite strict_needs_16 by (cbn; lia).
    cbn [truthy option_map]. rewrite slash_substitution_after_sanitize, sanitize_one, V.
    reflexivity.
  - destruct (isspace c); rewrite strict_needs_16 by (cbn; lia); reflexivity.
Qed.
End Fallback.

(** X12: when the strict pattern is not found, the reference that
    [parse_pdf_fields] returns is the one character that the [Referensi]
    pattern captures, provided it is neither white space nor illegal, and
    nothing otherwise; so such a reference is one character long. *)
Theorem fallback_reference_one_char {db : UnicodeDB} (raw : str) :
  re_search RE_INV_STRICT (_normalize_for_search raw) = None ->
  fst (parse_text raw) =
  match re_search RE_REF (_normalize_for_search raw) with
  | Some m => if forallb visible (group m "ref") then Some (group m "ref") else None
  | None => None
  end
  /\ match fst (parse_text raw) with
     | Some r => length r = 1
     | None => True
     end.
Proof.
  intros H. pose proof (fallback_reference raw H) as Hf. split; [exact Hf|].
  rewrite Hf. destruct (re_search RE_REF (_normalize_for_search raw)) as [m|] eqn:E;
    [|exact I].
  destruct (ref_search_group _ m E) as [c ->].
  destruct (forallb visible [c]); [reflexivity | exact I].
Qed.

Lemma fallback_reference_one_char_witness :
  fst (parse_text (db := ascii_only_db) (u "Lihat (Referensi: ABC-123) di bawah")) =
  match re_search (db := ascii_only_db) RE_REF
          (_normalize_for_search (db := ascii_only_db)
             (u "Lihat (Referensi: ABC-123) di bawah")) with
  | Some m => if forallb visible (group m "ref") then Some (group m "ref") else None
  | None => None
  end
  /\ match fst (parse_text (db := ascii_only_db) (u "Lihat (Referensi: ABC-123) di bawah")) with
     | Some r => length r = 1
     | None => True
     end.
Proof.
  apply (fallback_reference_one_char (db := ascii_only_db)).
  vm_compute. reflexivity.
Defined.

Example fallback_reference_example :
  fst (parse_text (db := ascii_only_db) (u "Lihat (Referensi: ABC-123) di bawah"))
  = Some (u "A").
Proof. vm_compute. reflexivity. Qed.

(** X13: a reference that [parse_pdf_fields] returns is not empty, holds no
    slash and no other illegal character, has the plain space as its only
    white space, and no two spaces in a row. *)
Theorem parsed_reference_clean {db : UnicodeDB} (raw r : str) :
  fst (parse_text raw) = Some r ->
  r <> [] /\ tidy r = true /\ ~ In chr_slash r.
Proof.
  unfold parse_text. cbn [fst].
  destruct (find_ref (_normalize_for_search raw)) as [[|x ref]|];
    cbn [truthy option_map or_None]; try discriminate.
  rewrite slash_substitution_after_sanitize.
  pose proof (sanitize_tidy (x :: ref)) as Ht.
  pose proof (sanitize_legal chr_slash (x :: ref)) as Hl.
  destruct (_sanitize (x :: ref)) as [|y t]; cbn [truthy]; [discriminate|].
  intros H; injection H as <-. split; [discriminate|]. split; [exact Ht|].
  intros Hin. specialize (Hl Hin). discriminate Hl.
Qed.

Lemma parsed_reference_clean_witness :
  u "INV 2025 09 0654" <> []
  /\ tidy (u "INV 2025 09 0654") = true
  /\ ~ In chr_slash (u "INV 2025 09 0654").
Proof.
  apply (parsed_reference_clean (db := ascii_only_db) example_text).
  vm_compute. reflexivity.
Defined.

Lemma collapse_all_space s :
  forallb isspace s = true ->
  collapse true s = [] /\ collapse false s = match s with [] => [] | _ :: _ => [chr_space] end.
Proof.
  induction s as [|c s IH]; [split; reflexivity|].
  cbn [forallb collapse]. rewrite andb_true_iff. intros [Hc Hs].
  destruct (IH Hs) as [IH1 _]. rewrite Hc, IH1. split; reflexivity.
Qed.

Lemma join_all_space chunks :
  Forall (fun p => forallb isspace p = true) chunks ->
  forallb isspace (join [chr_newline] chunks) = true.
Proof.
  induction 1 as [|x chunks Hx Hall IH]; [reflexivity|].
  cbn [join]. destruct chunks as [|y chunks]; [exact Hx|].
  rewrite !forallb_app, Hx, IH. reflexivity.
Qed.

Section BlankDocuments.
Context {db : UnicodeDB}.
Variable pdf_pages : list byte -> option (list (option str)).

(** A text of white space only has neither field. *)
Lemma parse_text_blank raw : forallb isspace raw = true -> parse_text raw = (None, None).
Proof.
  intros H. unfold parse_text. rewrite normalize_collapse.
  destruct (collapse_all_space raw H) as [_ ->].
  destruct raw; vm_compute; reflexivity.
Qed.

Lemma parse_pdf_fields_blank data :
  pdf_pages data = None
  \/ (exists pages, pdf_pages data = Some pages
                    /\ Forall (fun p => forallb isspace (or_empty p) = true) pages) ->
  parse_pdf_fields pdf_pages data = (None, None).
Proof.
  unfold parse_pdf_fields. intros [->|[pages [-> Hall]]]; [reflexivity|].
  apply parse_text_blank, join_all_space.
  induction Hall; constructor; assumption.
Qed.
End BlankDocuments.

(** X14: a record with a PDF name and some content whose text cannot be
    extracted, or whose pages hold nothing but white space, is read, handed to
    the PDF reader, and logged with the warning that neither field was found;
    nothing is added to the outputs and the batch goes on. *)
Theorem blank_document_warned {db : UnicodeDB}
    (pdf_pages : list byte -> option (list (option str)))
    (dry_run : bool) (i : nat) (fs : FileStorage) (st : batch) :
  named_pdf fs = true -> content fs <> [] ->
  pdf_pages (content fs) = None
  \/ (exists pages, pdf_pages (content fs) = Some pages
                    /\ Forall (fun p => forallb isspace (or_empty p) = true) pages) ->
  process_one pdf_pages dry_run i fs st
  = Some (log (emit (emit st (EvRead i)) (EvExtract (content fs)))
            (u "⚠️ " ++ or_empty (filename fs)
             ++ u ": Referensi & Nomor Seri tidak ditemukan.")).
Proof.
  intros Hn Hc Hblank.
  pose proof (parse_pdf_fields_blank pdf_pages (content fs) Hblank) as Hp.
  rewrite (process_one_warned pdf_pages dry_run i fs st Hn Hc)
    by (unfold composed_name; rewrite Hp; reflexivity).
  unfold log_line. rewrite Hn, Hp.
  destruct (content fs); [elim Hc; reflexivity | reflexivity].
Qed.

Lemma blank_document_warned_witness :
  process_one (db := ascii_only_db) MoreSamples.blank_pages false 0 MoreSamples.file_c
    empty_batch
  = Some (log (emit (emit empty_batch (EvRead 0)) (EvExtract (content MoreSamples.file_c)))
            (u "⚠️ " ++ or_empty (filename MoreSamples.file_c)
             ++ u ": Referensi & Nomor Seri tidak ditemukan.")).
Proof.
  apply (blank_document_warned (db := ascii_only_db) MoreSamples.blank_pages).
  - vm_compute. reflexivity.
  - discriminate.
  - right. exists [Some (u "  "); None; Some []]. split; [reflexivity|].
    repeat constructor.
Defined.

(** ** [process_files] *)

Lemma uint_chars_legal d : forallb (fun c => negb (is_illegal c)) (uint_chars d) = true.
Proof. induction d; cbn [uint_chars forallb]; try rewrite IHd; reflexivity. Qed.

Lemma suffixed_safe base k :
  forallb (fun c => negb (is_illegal c)) base = true -> safe_name (suffixed base k) = true.
Proof.
  intros Hb. unfold safe_name. apply andb_true_iff. split.
  - destruct k as [|k]; unfold suffixed; rewrite !forallb_app, Hb; [reflexivity|].
    unfold str_of_nat. rewrite uint_chars_legal. reflexivity.
  - destruct k as [|k]; unfold suffixed; [apply endswith_app|].
    change (u ").pdf") with (u ")" ++ u ".pdf"). rewrite !app_assoc. apply endswith_app.
Qed.

Lemma suffixed_inj base a b : suffixed base a = suffixed base b -> a = b.
Proof.
  destruct a as [|a], b as [|b]; unfold suffixed; intros H;
    apply app_inv_head in H; try reflexivity; try discriminate H.
  apply app_inv_head, app_inv_tail, str_of_nat_inj in H. exact H.
Qed.

Section BatchMore.
Context {db : UnicodeDB}.
Variable pdf_pages : list byte -> option (list (option str)).

Lemma composed_name_truthy fs n :
  composed_name pdf_pages fs = Some n -> truthy (Some n) = true.
Proof.
  intros H. destruct (composed_name_shape pdf_pages fs n H) as [base [-> _]].
  destruct base; reflexivity.
Qed.

Lemma accepts_true fs :
  accepts pdf_pages fs = true ->
  named_pdf fs = true /\ content fs <> []
  /\ exists n, composed_name pdf_pages fs = Some n.
Proof.
  unfold accepts. rewrite !andb_true_iff. intros [[Hn Hc] Ht].
  split; [exact Hn|]. split; [destruct (content fs); [discriminate Hc | discriminate]|].
  destruct (composed_name pdf_pages fs) as [n|]; [exists n; reflexivity | discriminate Ht].
Qed.

Lemma accepts_false fs :
  accepts pdf_pages fs = false ->
  named_pdf fs = false \/ content fs = [] \/ composed_name pdf_pages fs = None.
Proof.
  unfold accepts. destruct (named_pdf fs); [|auto].
  destruct (content fs); [auto|]. cbn [andb].
  destruct (composed_name pdf_pages fs) as [n|] eqn:E; [|auto].
  rewrite (composed_name_truthy fs n E). discriminate.
Qed.

Lemma composed_name_base_legal fs n :
  composed_name pdf_pages fs = Some n ->
  exists base, n = base ++ u ".pdf" /\ splitext n = (base, u ".pdf")
               /\ forallb (fun c => negb (is_illegal c)) base = true.
Proof.
  intros H. destruct (composed_name_shape pdf_pages fs n H) as [base [Hb Hs]].
  exists base. split; [exact Hb|]. split; [exact Hs|].
  unfold composed_name in H.
  destruct (parse_pdf_fields pdf_pages (content fs)) as [ref seri].
  apply build_new_name_safe_aux in H. destruct H as [H _].
  unfold safe_name in H. apply andb_true_iff in H. destruct H as [H _].
  rewrite Hb, forallb_app in H. apply andb_true_iff in H. apply H.
Qed.

(** One record of a real run: an accepted record appends its content under a
    safe name, any other record leaves the outputs alone. *)
Lemma process_one_real i fs st :
  exists st',
    process_one pdf_pages false i fs st = Some st'
    /\ ((accepts pdf_pages fs = true
         /\ exists name, outputs st' = outputs st ++ [(name, content fs)]
                         /\ safe_name name = true)
        \/ (accepts pdf_pages fs = false /\ outputs st' = outputs st)).
Proof.
  destruct (accepts pdf_pages fs) eqn:Ea.
  - destruct (accepts_true fs Ea) as [Hn [Hc [n Hcomp]]].
    destruct (process_one_accepted pdf_pages false i fs st n Hn Hc Hcomp) as [k [Hk _]].
    destruct (composed_name_base_legal fs n Hcomp) as [base [-> [Hs Hl]]].
    rewrite numbered_suffixed in Hk by exact Hs.
    eexists. split; [exact Hk|]. left. split; [reflexivity|].
    exists (suffixed base k). split; [reflexivity | apply suffixed_safe, Hl].
  - destruct (accepts_false fs Ea) as [Hn|[Hc|Hcomp]].
    + eexists. split; [apply process_one_rejected, Hn|]. right. split; reflexivity.
    + destruct (named_pdf fs) eqn:Hn.
      * eexists. split; [apply process_one_empty; assumption|]. right. split; reflexivity.
      * eexists. split; [apply process_one_rejected, Hn|]. right. split; reflexivity.
    + destruct (named_pdf fs) eqn:Hn;
        [|eexists; split; [apply process_one_rejected, Hn|]; right; split; reflexivity].
      destruct (content fs) as [|b data] eqn:Ec.
      * eexists. split; [apply process_one_empty; assumption|]. right. split; reflexivity.
      * eexists. split; [apply process_one_warned; [assumption| rewrite Ec; discriminate |assumption]|].
        right. split; reflexivity.
Qed.

Lemma process_from_real files : forall i st,
  exists st' outs,
    process_from pdf_pages false i files st = Some st'
    /\ outputs st' = outputs st ++ outs
    /\ map snd outs = map content (filter (accepts pdf_pages) files)
    /\ forallb safe_name (map fst outs) = true.
Proof.
  induction files as [|fs files IH]; intros i st.
  - exists st, []. rewrite app_nil_r. repeat split.
  - destruct (process_one_real i fs st) as [st1 [H1 Hcase]].
    destruct (IH (S i) st1) as [st' [outs [H2 [Hout [Hdata Hsafe]]]]].
    cbn [process_from filter]. rewrite H1.
    destruct Hcase as [[Ea [name [Ho Hn]]]|[Ea Ho]]; rewrite Ea.
    + exists st', ((name, content fs) :: outs). split; [exact H2|].
      split; [rewrite Hout, Ho, <- app_assoc; reflexivity|].
      cbn [map fst snd forallb]. rewrite Hdata, Hn, Hsafe. split; reflexivity.
    + exists st', outs. split; [exact H2|].
      split; [rewrite Hout, Ho; reflexivity|]. split; assumption.
Qed.

(** One record of a dry run. *)
Lemma process_one_dry i fs st :
  outputs st = [] ->
  exists st',
    process_one pdf_pages true i fs st = Some st'
    /\ results st' = results st ++ [dry_line pdf_pages fs]
    /\ outputs st' = [].
Proof.
  intros Hout. unfold dry_line.
  destruct (named_pdf fs) eqn:Hn.
  - destruct (content fs) as [|b data] eqn:Ec.
    + eexists. split; [apply process_one_empty; assumption|].
      split; [|exact Hout]. unfold log_line. rewrite Hn, Ec. reflexivity.
    + assert (Hc : content fs <> []) by (rewrite Ec; discriminate).
      destruct (composed_name pdf_pages fs) as [n|] eqn:Hcomp.
      * destruct (process_one_accepted pdf_pages true i fs st n Hn Hc Hcomp)
          as [k [Hk [_ Hmin]]].
        destruct k as [|k]; [|specialize (Hmin 0); rewrite Hout in Hmin; elim Hmin; lia].
        eexists. split; [exact Hk|].
        rewrite (log_line_accepted pdf_pages fs n _ Hn Hc Hcomp).
        split; [reflexivity | exact Hout].
      * eexists. split; [apply process_one_warned; assumption|].
        split; [reflexivity | exact Hout].
  - eexists. split; [apply process_one_rejected, Hn|].
    split; [|exact Hout]. unfold log_line. rewrite Hn. reflexivity.
Qed.

Lemma process_from_dry files : forall i st,
  outputs st = [] ->
  exists st',
    process_from pdf_pages true i files st = Some st'
    /\ results st' = results st ++ map (dry_line pdf_pages) files
    /\ outputs st' = [].
Proof.
  induction files as [|fs files IH]; intros i st Hout.
  - exists st. rewrite app_nil_r. repeat split. exact Hout.
  - destruct (process_one_dry i fs st Hout) as [st1 [H1 [Hr Ho]]].
    destruct (IH (S i) st1 Ho) as [st' [H2 [Hr' Ho']]].
    exists st'. cbn [process_from map]. rewrite H1. split; [exact H2|].
    split; [rewrite Hr', Hr, <- app_assoc; reflexivity | exact Ho'].
Qed.

(** The events of one record. *)
Lemma process_one_trace dry_run i fs st :
  exists st',
    process_one pdf_pages dry_run i fs st = Some st'
    /\ trace st' = trace st ++ record_events i fs.
Proof.
  unfold record_events. destruct (named_pdf fs) eqn:Hn; cbn [negb].
  - destruct (content fs) as [|b data] eqn:Ec.
    + eexists. split; [apply process_one_empty; assumption | reflexivity].
    + assert (Hc : content fs <> []) by (rewrite Ec; discriminate).
      destruct (composed_name pdf_pages fs) as [n|] eqn:Hcomp.
      * destruct (process_one_accepted pdf_pages dry_run i fs st n Hn Hc Hcomp)
          as [k [Hk _]].
        eexists. split; [exact Hk|]. unfold accepted. rewrite Ec.
        destruct dry_run; cbn [trace log emit append_output];
          rewrite <- app_assoc; reflexivity.
      * eexists. split; [apply process_one_warned; assumption|].
        cbn [trace log emit]. rewrite Ec, <- app_assoc. reflexivity.
  - eexists. split; [apply process_one_rejected, Hn|].
    cbn [trace log]. rewrite app_nil_r. reflexivity.
Qed.

Lemma process_from_trace dry_run files : forall i st,
  exists st',
    process_from pdf_pages dry_run i files st = Some st'
    /\ trace st' = trace st ++ events_from i files.
Proof.
  induction files as [|fs files IH]; intros i st.
  - exists st. rewrite app_nil_r. split; reflexivity.
  - destruct (process_one_trace dry_run i fs st) as [st1 [H1 Ht]].
    destruct (IH (S i) st1) as [st' [H2 Ht']].
    exists st'. cbn [process_from events_from]. rewrite H1. split; [exact H2|].
    rewrite Ht', Ht, <- app_assoc. reflexivity.
Qed.

Lemma process_from_app dry_run xs ys : forall i st,
  process_from pdf_pages dry_run i (xs ++ ys) st =
  match process_from pdf_pages dry_run i xs st with
  | Some st1 => process_from pdf_pages dry_run (i + length xs) ys st1
  | None => None
  end.
Proof.
  induction xs as [|x xs IH]; intros i st; cbn [app process_from length].
  - rewrite Nat.add_0_r. reflexivity.
  - destruct (process_one pdf_pages dry_run i x st) as [st1|]; [|reflexivity].
    rewrite IH. replace (S i + length xs) with (i + S (length xs)) by lia. reflexivity.
Qed.

Lemma process_from_grows dry_run files : forall i st,
  exists st' lines outs,
    process_from pdf_pages dry_run i files st = Some st'
    /\ results st' = results st ++ lines /\ length lines = length files
    /\ outputs st' = outputs st ++ outs.
Proof.
  induction files as [|fs files IH]; intros i st.
  - exists st, [], []. rewrite !app_nil_r. repeat split.
  - destruct (process_one_summary pdf_pages dry_run i fs st)
      as [st1 [final [H1 [Hres Hout]]]].
    destruct (IH (S i) st1) as [st' [lines [outs [H2 [Hres' [Hlen Hout']]]]]].
    cbn [process_from]. rewrite H1.
    exists st', (log_line pdf_pages fs final :: lines).
    destruct Hout as [Ho|[Ho _]].
    + exists outs. split; [exact H2|].
      split; [rewrite Hres', Hres, <- app_assoc; reflexivity|].
      split; [cbn [length]; rewrite Hlen; reflexivity | rewrite Hout', Ho; reflexivity].
    + exists ((final, content fs) :: outs). split; [exact H2|].
      split; [rewrite Hres', Hres, <- app_assoc; reflexivity|].
      split; [cbn [length]; rewrite Hlen; reflexivity|].
      rewrite Hout', Ho, <- app_assoc. reflexivity.
Qed.
End BatchMore.

Lemma dry_run_log_aux {db : UnicodeDB}
    (pdf_pages : list byte -> option (list (option str))) (files : list FileStorage) :
  process_files pdf_pages files true = Some (map (dry_line pdf_pages) files, []).
Proof.
  unfold process_files, run_batch.
  destruct (process_from_dry pdf_pages files 0 empty_batch eq_refl) as [st [H [Hr Ho]]].
  rewrite H. cbn [option_map]. rewrite Hr, Ho. reflexivity.
Qed.

(** X15: in a dry run the log is made record by record, the line of a record
    carrying the bare composed name whatever the other records are, and the
    outputs stay empty. *)
Theorem dry_run_log {db : UnicodeDB}
    (pdf_pages : list byte -> option (list (option str))) (files : list FileStorage) :
  process_files pdf_pages files true = Some (map (dry_line pdf_pages) files, []).
Proof. apply dry_run_log_aux. Qed.

(** X16: in a real run the outputs carry the contents of exactly the accepted
    records (PDF name, some content, a composed name), unchanged and in the
    order of the input. *)
Theorem real_run_outputs_data {db : UnicodeDB}
    (pdf_pages : list byte -> option (list (option str))) (files : list FileStorage) :
  exists lines outs,
    process_files pdf_pages files false = Some (lines, outs)
    /\ map snd outs = map content (filter (accepts pdf_pages) files).
Proof.
  unfold process_files, run_batch.
  destruct (process_from_real pdf_pages files 0 empty_batch)
    as [st [outs [H [Ho [Hdata _]]]]].
  exists (results st), outs. rewrite H. cbn [option_map]. rewrite Ho.
  split; [reflexivity | exact Hdata].
Qed.

(** X17: every name in the outputs, numbered or not, holds no illegal
    character and ends in [.pdf]. *)
Theorem output_names_safe {db : UnicodeDB}
    (pdf_pages : list byte -> option (list (option str))) (files : list FileStorage)
    (dry_run : bool) :
  exists lines outs,
    process_files pdf_pages files dry_run = Some (lines, outs)
    /\ forallb safe_name (map fst outs) = true.
Proof.
  destruct dry_run.
  - exists (map (dry_line pdf_pages) files), []. split; [apply dry_run_log_aux | reflexivity].
  - unfold process_files, run_batch.
    destruct (process_from_real pdf_pages files 0 empty_batch)
      as [st [outs [H [Ho [_ Hsafe]]]]].
    exists (results st), outs. rewrite H. cbn [option_map]. rewrite Ho.
    split; [reflexivity | exact Hsafe].
Qed.

Section SameName.
Context {db : UnicodeDB}.
Variable pdf_pages : list byte -> option (list (option str)).

Lemma process_from_same_name base files : forall i st j,
  Forall (fun fs => named_pdf fs = true /\ content fs <> []
                    /\ composed_name pdf_pages fs = Some (base ++ u ".pdf")) files ->
  map fst (outputs st) = map (suffixed base) (seq 0 j) ->
  exists st',
    process_from pdf_pages false i files st = Some st'
    /\ outputs st' = outputs st
                     ++ combine (map (suffixed base) (seq j (length files)))
                          (map content files).
Proof.
  induction files as [|fs files IH]; intros i st j Hall Hnames.
  - exists st. rewrite app_nil_r. split; reflexivity.
  - inversion Hall as [|? ? [Hn [Hc Hcomp]] Hrest]; subst.
    destruct (composed_name_shape pdf_pages fs _ Hcomp) as [base' [Hb Hsplit]].
    apply app_inv_tail in Hb. subst base'.
    destruct (process_one_accepted pdf_pages false i fs st _ Hn Hc Hcomp)
      as [k [Hk [Hfresh Hmin]]].
    rewrite numbered_suffixed in Hk, Hfresh by exact Hsplit.
    assert (k = j).
    { destruct (Nat.lt_trichotomy k j) as [Hlt|[Heq|Hgt]]; [|exact Heq|].
      - elim Hfresh. rewrite Hnames. apply in_map, in_seq. lia.
      - specialize (Hmin j Hgt). rewrite numbered_suffixed in Hmin by exact Hsplit.
        rewrite Hnames in Hmin. apply in_map_iff in Hmin.
        destruct Hmin as [x [Hx Hin]]. apply suffixed_inj in Hx. apply in_seq in Hin. lia. }
    subst k.
    destruct (IH (S i) (accepted st i fs (suffixed base j) false) (S j) Hrest)
      as [st' [H2 Ho]].
    + unfold accepted. cbn [outputs append_output log emit].
      rewrite map_app, Hnames, seq_S, map_app. reflexivity.
    + exists st'. cbn [process_from]. rewrite Hk. split; [exact H2|].
      rewrite Ho. unfold accepted. cbn [outputs append_output log emit length seq map combine].
      rewrite <- app_assoc. reflexivity.
Qed.

(** The first accepted record of a real run that starts without outputs gets
    its composed name. *)
Lemma process_from_first files : forall i st fs rest,
  outputs st = [] ->
  filter (accepts pdf_pages) files = fs :: rest ->
  exists st' n outs,
    process_from pdf_pages false i files st = Some st'
    /\ composed_name pdf_pages fs = Some n
    /\ outputs st' = (n, content fs) :: outs.
Proof.
  induction files as [|f files IH]; intros i st fs rest Hout Hf; [discriminate|].
  cbn [filter] in Hf. destruct (accepts pdf_pages f) eqn:Ea.
  - injection Hf as -> _.
    destruct (accepts_true pdf_pages fs Ea) as [Hn [Hc [n Hcomp]]].
    destruct (process_one_accepted pdf_pages false i fs st n Hn Hc Hcomp)
      as [k [Hk [_ Hmin]]].
    destruct k as [|k]; [|specialize (Hmin 0); rewrite Hout in Hmin; elim Hmin; lia].
    destruct (process_from_grows pdf_pages false files (S i)
                (accepted st i fs (numbered n 0) false))
      as [st' [lines [outs [H2 [_ [_ Ho]]]]]].
    exists st', n, outs. cbn [process_from]. rewrite Hk.
    split; [exact H2|]. split; [exact Hcomp|].
    rewrite Ho. unfold accepted. cbn [outputs append_output log emit numbered].
    rewrite Hout. reflexivity.
  - destruct (process_one_real pdf_pages i f st) as [st1 [H1 [[Ea' _]|[_ Ho]]]];
      [congruence|].
    destruct (IH (S i) st1 fs rest) as [st' [n [outs [H2 [Hcomp Ho']]]]];
      [rewrite Ho; exact Hout | exact Hf|].
    exists st', n, outs. cbn [process_from]. rewrite H1. auto.
Qed.
End SameName.

(** X18: in a real run of records that all compose the same name, the first
    one gets the bare name and the following ones get [" (1)"], [" (2)"], ...
    in the order of the input, each with its own content. *)
Theorem same_name_numbering {db : UnicodeDB}
    (pdf_pages : list byte -> option (list (option str)))
    (base : str) (files : list FileStorage) :
  Forall (fun fs => named_pdf fs = true /\ content fs <> []
                    /\ composed_name pdf_pages fs = Some (base ++ u ".pdf")) files ->
  option_map snd (process_files pdf_pages files false)
  = Some (combine (map (suffixed base) (seq 0 (length files))) (map content files)).
Proof.
  intros Hall. unfold process_files, run_batch.
  destruct (process_from_same_name pdf_pages base files 0 empty_batch 0 Hall eq_refl)
    as [st [H Ho]].
  rewrite H. cbn [option_map snd]. rewrite Ho. reflexivity.
Qed.

Lemma same_name_numbering_witness :
  option_map snd
    (process_files (db := ascii_only_db) Samples.pages
       [Samples.file_a; Samples.file_b; MoreSamples.file_c] false)
  = Some [(Samples.base ++ u ".pdf", [x01]);
          (Samples.base ++ u " (1).pdf", [x02]);
          (Samples.base ++ u " (2).pdf", [x04])].
Proof.
  rewrite (same_name_numbering (db := ascii_only_db) Samples.pages Samples.base
             [Samples.file_a; Samples.file_b; MoreSamples.file_c]).
  - reflexivity.
  - repeat constructor; try discriminate; vm_compute; reflexivity.
Defined.

(** X19: what a batch does to the outside does not depend on the dry-run flag
    and is fixed record by record: nothing for a record without PDF name, one
    read for a record without content, and one read followed by one call of
    the PDF reader on the content otherwise. *)
Theorem batch_trace {db : UnicodeDB}
    (pdf_pages : list byte -> option (list (option str)))
    (files : list FileStorage) (dry_run : bool) :
  exists st,
    run_batch pdf_pages files dry_run = Some st
    /\ trace st = events_from 0 files.
Proof.
  unfold run_batch.
  destruct (process_from_trace pdf_pages dry_run files 0 empty_batch) as [st [H Ht]].
  exists st. split; [exact H | exact Ht].
Qed.

(** X20: the outcome of a record never depends on the records after it: the
    log and the outputs of a batch are a prefix of those of any longer batch
    that starts with it, and every further record adds one line. *)
Theorem batch_prefix {db : UnicodeDB}
    (pdf_pages : list byte -> option (list (option str)))
    (xs ys : list FileStorage) (dry_run : bool) :
  exists lines outs more_lines more_outs,
    process_files pdf_pages xs dry_run = Some (lines, outs)
    /\ process_files pdf_pages (xs ++ ys) dry_run
       = Some (lines ++ more_lines, outs ++ more_outs)
    /\ length more_lines = length ys.
Proof.
  unfold process_files, run_batch. rewrite process_from_app.
  destruct (process_from_grows pdf_pages dry_run xs 0 empty_batch)
    as [st1 [l1 [o1 [H1 _]]]].
  destruct (process_from_grows pdf_pages dry_run ys (0 + length xs) st1)
    as [st2 [l2 [o2 [H2 [Hr [Hlen Ho]]]]]].
  rewrite H1, H2. cbn [option_map].
  exists (results st1), (outputs st1), l2, o2. rewrite Hr, Ho. auto.
Qed.

(** ** [upload_file] *)

(** X21: a dry-run request with at least one file is answered with the result
    page showing the log, one line per file; no file is ever sent. *)
Theorem upload_dry_run {db : UnicodeDB} {zl : ZipLib}
    (pdf_pages : list byte -> option (list (option str))) (req : request) :
  form_files req <> [] -> truthy (form_dry_run req) = true ->
  upload_file pdf_pages req
  = Some (RenderTemplate (u "result.html") (map (dry_line pdf_pages) (form_files req))).
Proof.
  intros Hf Hd. unfold upload_file. rewrite Hd, dry_run_log_aux.
  destruct (form_files req); [elim Hf; reflexivity | reflexivity].
Qed.

Lemma upload_dry_run_witness :
  upload_file (db := ascii_only_db) (zl := MoreSamples.list_zip) Samples.pages
    {| form_files := [Samples.file_a; Samples.notes]; form_dry_run := Some (u "on") |}
  = Some (RenderTemplate (u "result.html")
            (map (dry_line (db := ascii_only_db) Samples.pages)
               (form_files {| form_files := [Samples.file_a; Samples.notes];
                              form_dry_run := Some (u "on") |}))).
Proof.
  apply (upload_dry_run (db := ascii_only_db) (zl := MoreSamples.list_zip) Samples.pages).
  - discriminate.
  - reflexivity.
Defined.

(** Writing goes on where it stopped: the entries of [xs ++ ys] are written
    as those of [xs] and then, if none of these calls raised, those of
    [ys]. *)
Lemma write_all_app {zl : ZipLib} (xs ys : list (str * list byte)) (zf : zip_file) :
  write_all zf (xs ++ ys)
  = match write_all zf xs with
    | Some zf' => write_all zf' ys
    | None => None
    end.
Proof.
  revert zf. induction xs as [|[n b] xs IH]; intros zf; [reflexivity|].
  cbn [app write_all]. destruct (writestr zf n b) as [zf'|]; [apply IH | reflexivity].
Qed.

(** X22: a real request with at least one file is answered by the number of
    accepted records: with the result page when there is none, with the PDF of
    the one accepted record under its composed name when there is one, and
    otherwise with what the zip library makes of the entries written to it,
    which carry the contents of the accepted records in order under pairwise
    distinct safe names: the archive if every call of the library returns, an
    exception if one raises. *)
Theorem upload_real_run {db : UnicodeDB} {zl : ZipLib}
    (pdf_pages : list byte -> option (list (option str))) (req : request) :
  form_files req <> [] -> truthy (form_dry_run req) = false ->
  match filter (accepts pdf_pages) (form_files req) with
  | [] =>
      exists lines,
        upload_file pdf_pages req = Some (RenderTemplate (u "result.html") lines)
        /\ length lines = length (form_files req)
  | [fs] =>
      exists n,
        composed_name pdf_pages fs = Some n
        /\ upload_file pdf_pages req
           = Some (SendFile (PdfBytes (content fs)) n (u "application/pdf"))
  | fs1 :: fs2 :: rest =>
      exists entries,
        map snd entries = map content (fs1 :: fs2 :: rest)
        /\ NoDup (map fst entries)
        /\ forallb safe_name (map fst entries) = true
        /\ upload_file pdf_pages req
           = Some (match zip_in_memory entries with
                   | Some buff =>
                       SendFile (ZipBuffer buff) (u "renamed_pdfs.zip") (u "application/zip")
                   | None => Raises
                   end)
  end.
Proof.
  intros Hf Hd. unfold upload_file, process_files, run_batch. rewrite Hd.
  destruct (process_from_real pdf_pages (form_files req) 0 empty_batch)
    as [st [outs [H [Ho [Hdata Hsafe]]]]].
  destruct (process_from_summary pdf_pages false (form_files req) 0 empty_batch)
    as [st0 [lines [H0 [Hres [Hall Hnd]]]]].
  rewrite H in H0. injection H0 as <-.
  specialize (Hnd (NoDup_nil _)). cbn [outputs empty_batch app] in Ho.
  cbn [results empty_batch app] in Hres.
  destruct (form_files req) as [|f files] eqn:Ef; [elim Hf; reflexivity|].
  rewrite H. cbn [option_map]. subst outs.
  destruct (filter (accepts pdf_pages) (f :: files)) as [|fs1 [|fs2 rest]] eqn:Ea.
  - destruct (outputs st); [|discriminate Hdata].
    exists lines. rewrite Hres. split; [reflexivity|].
    symmetry. apply (Forall2_length Hall).
  - destruct (process_from_first pdf_pages (f :: files) 0 empty_batch fs1 [] eq_refl Ea)
      as [st1 [n [outs1 [H1 [Hcomp Ho1]]]]].
    rewrite H in H1. injection H1 as <-. rewrite Ho1 in Hdata |- *.
    destruct outs1; [|cbn [map] in Hdata; discriminate Hdata].
    exists n. split; [exact Hcomp | reflexivity].
  - destruct (outputs st) as [|[n1 b1] [|[n2 b2] outs]];
      try (cbn [map] in Hdata; discriminate Hdata).
    eexists. split; [exact Hdata|]. split; [assumption|]. split; [assumption|].
    reflexivity.
Qed.

Lemma upload_real_run_witness :
  exists entries,
    map snd entries = map content [Samples.file_a; Samples.file_b]
    /\ NoDup (map fst entries)
    /\ forallb safe_name (map fst entries) = true
    /\ upload_file (db := ascii_only_db) (zl := MoreSamples.list_zip) Samples.pages
         {| form_files := [Samples.file_a; Samples.notes; Samples.file_b];
            form_dry_run := None |}
       = Some (match zip_in_memory (zl := MoreSamples.list_zip) entries with
               | Some buff =>
                   SendFile (ZipBuffer buff) (u "renamed_pdfs.zip") (u "application/zip")
               | None => Raises
               end).
Proof.
  assert (Hf : form_files {| form_files := [Samples.file_a; Samples.notes; Samples.file_b];
                             form_dry_run := None |} <> [])
    by (cbn; discriminate).
  pose proof (upload_real_run (db := ascii_only_db) (zl := MoreSamples.list_zip)
                Samples.pages _ Hf eq_refl) as H.
  replace (filter (accepts (db := ascii_only_db) Samples.pages)
             (form_files {| form_files := [Samples.file_a; Samples.notes; Samples.file_b];
                            form_dry_run := None |}))
    with [Samples.file_a; Samples.file_b] in H by (vm_compute; reflexivity).
  exact H.
Defined.

Example upload_two_accepted :
  upload_file (db := ascii_only_db) (zl := MoreSamples.list_zip) Samples.pages
    {| form_files := [Samples.file_a; Samples.notes; Samples.file_b];
       form_dry_run := None |}
  = Some (SendFile (ZipBuffer [x01; x02]) (u "renamed_pdfs.zip") (u "application/zip")).
Proof. vm_compute. reflexivity. Qed.

Example upload_one_accepted :
  upload_file (db := ascii_only_db) (zl := MoreSamples.list_zip) Samples.pages
    {| form_files := [Samples.notes; Samples.file_b; MoreSamples.empty_file];
       form_dry_run := Some [] |}
  = Some (SendFile (PdfBytes [x02]) Samples.name (u "application/pdf")).
Proof. vm_compute. reflexivity. Qed.

Example upload_without_files :
  upload_file (db := ascii_only_db) (zl := MoreSamples.list_zip) Samples.pages
    {| form_files := []; form_dry_run := None |}
  = Some (Abort 400 (u "Tidak ada file yang diupload.")).
Proof. reflexivity. Qed.

(** A reference may be the character NUL, which [_sanitize] keeps: the names
    composed for two such records are handed to the zip library as they are,
    and a library that finds nothing left of them raises. *)
Example upload_nul_names :
  process_files (db := ascii_only_db) MoreSamples.nul_pages
    [Samples.file_a; Samples.file_b] false
  = Some ([u "✅ a.pdf → " ++ [0%N] ++ u " - 12.pdf";
           u "✅ B.PDF → " ++ [0%N] ++ u " - 12 (1).pdf"],
          [([0%N] ++ u " - 12.pdf", [x01]); ([0%N] ++ u " - 12 (1).pdf", [x02])])
  /\ upload_file (db := ascii_only_db) (zl := MoreSamples.list_zip) MoreSamples.nul_pages
       {| form_files := [Samples.file_a; Samples.file_b]; form_dry_run := None |}
     = Some Raises.
Proof. split; vm_compute; reflexivity. Qed.
